(** * Route matching core: app-path aggregation and the route matcher manager

    A shallow embedding of
    - [packages/next/src/server/lib/app-paths-collector.ts],
    - [packages/next/src/server/lib/app-paths-routes.ts],
    - [packages/next/src/server/future/route-matchers/default-route-matcher.ts],
    - the [DefaultRouteMatcherManager] class,
    together with the properties stated about them.

    JavaScript strings are modelled by [string]; the default comparator of
    [Array.prototype.sort] on strings is the lexicographic order on code
    units, here [String.le]. *)

From Stdlib Require Import Ascii.
From stdpp Require Import base option list sorting strings gmap.


(** ** JavaScript [Map<string, V>]

    A [Map] remembers the order in which its keys were first inserted, and
    [keys()] enumerates them in that order; [set] on a key that is already
    present replaces the value and keeps the key's position. *)

Definition JsMap (V : Type) : Type := list (string * V).

Fixpoint map_get {V} (k : string) (m : JsMap V) : option V :=
  match m with
  | [] => None
  | (k', v) :: m' => if decide (k = k') then Some v else map_get k m'
  end.

Fixpoint map_set {V} (k : string) (v : V) (m : JsMap V) : JsMap V :=
  match m with
  | [] => [(k, v)]
  | (k', v') :: m' =>
      if decide (k = k') then (k, v) :: m' else (k', v') :: map_set k v m'
  end.

Definition map_keys {V} (m : JsMap V) : list string := m.*1.

(** [Array.prototype.sort()] without a comparator, on an array of strings. *)
Definition js_sort (l : list string) : list string := merge_sort String.le l.

(** The aggregate [{ page, pathname, appPaths }] shared by both classes
    ([AppPaths] in the collector, [AppPathRoute] in the routes class).
    [page] is [appPaths[appPaths.length - 1]], which is [undefined] ([None])
    on an empty array. *)
Record AppPaths : Type := mkAppPaths {
  page : option string;
  pathname : string;
  appPaths : list string
}.

(** A plain object whose values are arrays of strings, as [toObject] builds
    it.  [own] are its own properties, kept as a finite map (the order in
    which [Object.keys] would enumerate them is not modelled); [prototype]
    is [None] for the initial [Object.prototype], and the array it has been
    replaced with otherwise. *)
Record JsObject : Type := mkJsObject {
  own : gmap string (list string);
  prototype : option (list string)
}.

(** [obj[key] = value] for an array [value]: the assignment creates or
    replaces the own property [key], except for the key [__proto__], which
    is the accessor inherited from [Object.prototype]: given an array it
    replaces the prototype of [obj] and adds no property. *)
Definition assign (key : string) (value : list string) (obj : JsObject) : JsObject :=
  if decide (key = "__proto__")
  then {| own := own obj; prototype := Some value |}
  else {| own := <[key := value]> (own obj); prototype := prototype obj |}.

(** ** [AppPathsCollector] *)
Module AppPathsCollector.

(** The private field [appPaths = new Map<string, string[]>()].  The map
    holds references to arrays; an [Array.prototype.push] on an array held
    by the map is written as an update of the entry. *)
Definition t : Type := JsMap (list string).

Definition empty : t := [].

Definition push (pathname page : string) (c : t) : t * nat :=
  let appPaths := default [] (map_get pathname c) in
  let c1 := if (length appPaths =? 0)%nat then map_set pathname appPaths c else c in
  let appPaths' := appPaths ++ [page] in
  (map_set pathname appPaths' c1, length appPaths').

Definition clear (c : t) : t := [].

Definition pathnames (c : t) : list string := js_sort (map_keys c).

Definition get (pathname : string) (c : t) : option AppPaths :=
  match map_get pathname c with
  | None => None
  | Some stored =>
      let appPaths := js_sort stored in
      Some {| page := appPaths !! (length appPaths - 1);
              pathname := pathname;
              appPaths := appPaths |}
  end.

Definition toSortedArray (c : t) : list AppPaths :=
  omap (λ pathname, get pathname c) (pathnames c).

Definition toObject (c : t) : JsObject :=
  foldl (λ obj pathname,
           match map_get pathname c with
           | None => obj
           | Some stored => assign pathname (js_sort stored) obj
           end)
        {| own := ∅; prototype := None |}
        (pathnames c).

(** A run of [push] calls, in order, with the counts they return. *)
Fixpoint push_all (ps : list (string * string)) (c : t) : t * list nat :=
  match ps with
  | [] => (c, [])
  | (pathname, page) :: ps' =>
      let '(c1, n) := push pathname page c in
      let '(c2, ns) := push_all ps' c1 in
      (c2, n :: ns)
  end.

End AppPathsCollector.

(** ** [AppPathsRoutes] *)
Module AppPathsRoutes.

Definition t : Type := JsMap (list string).

Definition empty : t := [].

Definition add (pathname page : string) (r : t) : t * nat :=
  match map_get pathname r with
  | None =>
      let appPaths := [page] in
      (map_set pathname appPaths r, length appPaths)
  | Some stored =>
      let appPaths := js_sort (stored ++ [page]) in
      (map_set pathname appPaths r, length appPaths)
  end.

Definition pathnames (r : t) : list string := js_sort (map_keys r).

Definition get (pathname : string) (r : t) : option AppPaths :=
  match map_get pathname r with
  | None => None
  | Some appPaths =>
      Some {| page := appPaths !! (length appPaths - 1);
              pathname := pathname;
              appPaths := appPaths |}
  end.

(** The non-null assertion [this.get(pathname)!] has no effect at run time:
    the array receives whatever [get] returned, [null] included. *)
Definition toSortedArray (r : t) : list (option AppPaths) :=
  (λ pathname, get pathname r) <$> pathnames r.

Fixpoint add_all (ps : list (string * string)) (r : t) : t * list nat :=
  match ps with
  | [] => (r, [])
  | (pathname, page) :: ps' =>
      let '(r1, n) := add pathname page r in
      let '(r2, ns) := add_all ps' r1 in
      (r2, n :: ns)
  end.

End AppPathsRoutes.

(** ** Notions used to state the properties of the two classes *)

(** The pages pushed for [k], in push order. *)
Definition pages_of (k : string) (ps : list (string * string)) : list string :=
  (filter (λ p, p.1 = k) ps).*2.

(** The aggregate that [get] builds from the stored pages of a pathname. *)
Definition aggregate (k : string) (stored : list string) : option AppPaths :=
  match stored with
  | [] => None
  | _ => Some (mkAppPaths (last (js_sort stored)) k (js_sort stored))
  end.

(** The routes map holds, key for key and in the same key order, the sorted
    copy of what the collector map holds. *)
Definition sorted_image (c : AppPathsCollector.t) (r : AppPathsRoutes.t) : Prop :=
  r = prod_map id js_sort <$> c.

(** ** Values exchanged with route matchers *)

Inductive JsError : Type := Error (message : string).

(** How a call ends: with a value, or by throwing. *)
Inductive Outcome (A : Type) : Type :=
  | Returns (a : A)
  | Throws (e : JsError).
Arguments Returns {A} a.
Arguments Throws {A} e.

(** How a promise settles. *)
Inductive Settled (A : Type) : Type :=
  | Fulfilled (a : A)
  | Rejected (e : JsError).
Arguments Fulfilled {A} a.
Arguments Rejected {A} e.

(** [RouteKind]; the sources at hand only name [APP_PAGE]. *)
Inductive RouteKind : Type :=
  | APP_PAGE
  | OTHER_KIND (name : string).

(** The route definition literal built by the app page providers. *)
Module RouteDefinition.
Record t : Type := mk {
  kind : RouteKind;
  pathname : string;
  page : string;
  bundlePath : string;
  filename : string;
  appPaths : list string
}.
End RouteDefinition.

Inductive ParamValue : Type :=
  | ParamString (s : string)
  | ParamArray (l : list string).

Definition Params : Type := list (string * ParamValue).

Record RouteMatch : Type := mkRouteMatch {
  definition : RouteDefinition.t;
  params : Params
}.

(** Locale context carried by normalized options ([options.i18n]). *)
Record LocaleInfo : Type := mkLocaleInfo {
  detectedLocale : option string;
  inferredFromDefault : bool;
  i18n_pathname : string
}.

Record Options : Type := mkOptions {
  i18n : option LocaleInfo;
  matchedOutputPathname : option string
}.

Record NormalizedMatchOptions : Type := mkNormalized {
  n_pathname : string;
  options : Options
}.

(** The three objects that [validate] hands to [matcher.match]:
    [normalized.options.i18n], the literal [{ pathname }], and [normalized]. *)
Inductive MatchArg : Type :=
  | ArgI18n (info : LocaleInfo)
  | ArgPathname (pathname : string)
  | ArgNormalized (normalized : NormalizedMatchOptions).

(** The [pathname] property of such an object. *)
Definition arg_pathname (a : MatchArg) : string :=
  match a with
  | ArgI18n info => i18n_pathname info
  | ArgPathname p => p
  | ArgNormalized n => n_pathname n
  end.

(** A route matcher object: [address] is its identity as an object (what
    [===] compares), [isLocaleRouteMatcher] is [LocaleRouteMatcher.is(matcher)],
    the other fields are its getters and its [match] method. *)
Record RouteMatcher : Type := mkRouteMatcher {
  address : nat;
  identity : string;
  isDynamic : bool;
  isLocaleRouteMatcher : bool;
  matcher_match : MatchArg → option RouteMatch
}.

Definition same_object (a b : RouteMatcher) : bool := (address a =? address b)%nat.

(** ** [DefaultRouteMatcher] *)

(** [PathnameMatcher]: [isDynamicPathnameMatcher] is
    [matcher instanceof DynamicPathnameMatcher]. *)
Record PathnameMatcher : Type := mkPathnameMatcher {
  isDynamicPathnameMatcher : bool;
  pathname_match : string → option Params
}.

Section DefaultRouteMatcher.
(** [createPathnameMatcher] from [helpers/create-pathname-matcher]. *)
Variable createPathnameMatcher : string → PathnameMatcher.

Definition DefaultRouteMatcher (addr : nat) (d : RouteDefinition.t) : RouteMatcher :=
  let matcher := createPathnameMatcher (RouteDefinition.pathname d) in
  {| address := addr;
     identity := RouteDefinition.pathname d;
     isDynamic := isDynamicPathnameMatcher matcher;
     isLocaleRouteMatcher := false;
     matcher_match := λ arg,
       match pathname_match matcher (arg_pathname arg) with
       | None => None
       | Some result => Some {| definition := d; params := result |}
       end |}.
End DefaultRouteMatcher.

(** ** [DefaultRouteMatcherManager] *)

(** The compiled snapshot, [RouteMatchers]. *)
Record RouteMatchers : Type := mkRouteMatchers {
  static : list RouteMatcher;
  dynamic : list RouteMatcher;
  duplicates : gmap string (list RouteMatcher);
  all : gmap string (list RouteMatcher)
}.

(** A provider is an object whose [matchers()] is asynchronous; what a call
    settles to is decided by the world outside the manager. *)
Inductive RouteMatcherProvider : Type := Provider (id : nat).

Definition ProviderAnswers : Type :=
  RouteMatcherProvider → Settled (list RouteMatcher).

(** The promise built by [forceReload] for [waitTillReady]. *)
Inductive PromiseState : Type :=
  | Pending
  | Resolved
  | RejectedWith (e : JsError).

(** The fields of the manager.  [waitTillReadyPromise] refers to a promise
    of [promises], the promises created by [forceReload] so far, by index;
    [None] is [undefined]. *)
Record Manager : Type := mkManager {
  providers : list RouteMatcherProvider;
  matchers : RouteMatchers;
  lastCompilationID : nat;
  waitTillReadyPromise : option nat;
  reloadHasBeenCalled : bool;
  previousMatchers : list RouteMatcher;
  promises : list PromiseState
}.

Definition compilationID (m : Manager) : nat := length (providers m).

(** A freshly constructed manager; [lastCompilationID = this.compilationID]
    is read when [providers] is still empty. *)
Definition new_manager : Manager :=
  {| providers := [];
     matchers := {| static := []; dynamic := []; duplicates := ∅; all := ∅ |};
     lastCompilationID := 0;
     waitTillReadyPromise := None;
     reloadHasBeenCalled := false;
     previousMatchers := [];
     promises := [] |}.

Definition set_providers (v : list RouteMatcherProvider) (m : Manager) : Manager :=
  mkManager v (matchers m) (lastCompilationID m) (waitTillReadyPromise m)
            (reloadHasBeenCalled m) (previousMatchers m) (promises m).
Definition set_matchers (v : RouteMatchers) (m : Manager) : Manager :=
  mkManager (providers m) v (lastCompilationID m) (waitTillReadyPromise m)
            (reloadHasBeenCalled m) (previousMatchers m) (promises m).
Definition set_lastCompilationID (v : nat) (m : Manager) : Manager :=
  mkManager (providers m) (matchers m) v (waitTillReadyPromise m)
            (reloadHasBeenCalled m) (previousMatchers m) (promises m).
Definition set_waitTillReadyPromise (v : option nat) (m : Manager) : Manager :=
  mkManager (providers m) (matchers m) (lastCompilationID m) v
            (reloadHasBeenCalled m) (previousMatchers m) (promises m).
Definition set_reloadHasBeenCalled (v : bool) (m : Manager) : Manager :=
  mkManager (providers m) (matchers m) (lastCompilationID m) (waitTillReadyPromise m)
            v (previousMatchers m) (promises m).
Definition set_previousMatchers (v : list RouteMatcher) (m : Manager) : Manager :=
  mkManager (providers m) (matchers m) (lastCompilationID m) (waitTillReadyPromise m)
            (reloadHasBeenCalled m) v (promises m).
Definition set_promises (v : list PromiseState) (m : Manager) : Manager :=
  mkManager (providers m) (matchers m) (lastCompilationID m) (waitTillReadyPromise m)
            (reloadHasBeenCalled m) (previousMatchers m) v.

Definition set_static (v : list RouteMatcher) (s : RouteMatchers) : RouteMatchers :=
  mkRouteMatchers v (dynamic s) (duplicates s) (all s).
Definition set_dynamic (v : list RouteMatcher) (s : RouteMatchers) : RouteMatchers :=
  mkRouteMatchers (static s) v (duplicates s) (all s).
Definition set_duplicates (v : gmap string (list RouteMatcher)) (s : RouteMatchers) : RouteMatchers :=
  mkRouteMatchers (static s) (dynamic s) v (all s).
Definition set_all (v : gmap string (list RouteMatcher)) (s : RouteMatchers) : RouteMatchers :=
  mkRouteMatchers (static s) (dynamic s) (duplicates s) v.

(** [resolve] and [reject] settle a promise that is still pending and do
    nothing to a settled one. *)
Definition settle (p : nat) (s : PromiseState) (m : Manager) : Manager :=
  match promises m !! p with
  | Some Pending => set_promises (<[p := s]> (promises m)) m
  | _ => m
  end.

(** [Promise.all] over calls that have settled: the list of values, or a
    rejection (the first one in the list stands for the first one in time). *)
Fixpoint promise_all {A} (l : list (Settled A)) : Settled (list A) :=
  match l with
  | [] => Fulfilled []
  | Rejected e :: _ => Rejected e
  | Fulfilled a :: l' =>
      match promise_all l' with
      | Fulfilled rest => Fulfilled (a :: rest)
      | Rejected e => Rejected e
      end
  end.

(** [previousMatchers.every((cachedMatcher, index) => cachedMatcher === matchers[index])] *)
Fixpoint every_identical (previous current : list RouteMatcher) : bool :=
  match previous, current with
  | [], _ => true
  | _ :: _, [] => false
  | cached :: previous', m :: current' =>
      same_object cached m && every_identical previous' current'
  end.

(** How a block of statements ends. *)
Inductive Completion : Type :=
  | Normal
  | Return
  | Throw (e : JsError).

(** [try { body } catch (err) { handler } finally { finalizer }] over the
    manager's state. *)
Definition try_catch_finally
    (body : Manager → Manager * Completion)
    (handler : JsError → Manager → Manager * Completion)
    (finalizer : Manager → Manager * Completion)
    (m : Manager) : Manager * Completion :=
  let '(m1, c1) := body m in
  let '(m2, c2) := match c1 with
                   | Throw e => handler e m1
                   | _ => (m1, c1)
                   end in
  let '(m3, c3) := finalizer m2 in
  (m3, match c3 with Normal => c2 | _ => c3 end).

(** What an [async] function's promise settles to. *)
Definition async_result (c : Completion) : Settled unit :=
  match c with
  | Throw e => Rejected e
  | _ => Fulfilled ()
  end.

(** What one [forceReload] call keeps across its [await]: its [callbacks]
    (the promise they settle), the [compilationID] read at entry, and the
    providers whose [matchers()] it called. *)
Record Reload : Type := mkReload {
  callbacks : nat;
  entryCompilationID : nat;
  called : list RouteMatcherProvider
}.

(** Events of one [matchAll] generator, in order: a matcher handed to
    [validate], a match yielded. *)
Inductive Event : Type :=
  | Validated (matcher : RouteMatcher)
  | Yielded (result : RouteMatch).

Record Generated : Type := mkGenerated {
  events : list Event;
  finish : Outcome unit
}.

Definition yields (g : Generated) : list RouteMatch :=
  omap (λ ev, match ev with Yielded r => Some r | Validated _ => None end) (events g).

Definition consulted (g : Generated) : list RouteMatcher :=
  omap (λ ev, match ev with Validated m => Some m | Yielded _ => None end) (events g).

(** Truthiness of an optional string property. *)
Definition truthy (s : option string) : bool :=
  match s with
  | None => false
  | Some v => bool_decide (v ≠ "")
  end.

Definition invariant_not_loaded : JsError :=
  Error "Invariant: expected routes to have been loaded before match".
Definition invariant_new_matchers : JsError :=
  Error "Invariant: expected compilation to finish before new matchers were added, possible missing await".
Definition invariant_locale : JsError :=
  Error "Invariant: expected locale matcher to have locale information for matching".

Section Manager.
(** Imported helpers whose sources are not at hand: the raw options type
    and the [MatchOptionsNormalizer], [isDynamicRoute],
    [groupMatcherResults] (returning [all] and [duplicates]) and
    [sortDynamicMatchers]. *)
Variable MatchOptions : Type.
Variable normalize : string → MatchOptions → NormalizedMatchOptions.
Variable isDynamicRoute : string → bool.
Variable groupMatcherResults :
  list RouteMatcher →
  gmap string (list RouteMatcher) * gmap string (list RouteMatcher).
Variable sortDynamicMatchers : list RouteMatcher → list RouteMatcher.

Definition push (new : list RouteMatcherProvider) (m : Manager) : Manager :=
  set_providers (providers m ++ new) m.

(** [forceReload] up to its [await]. *)
Definition forceReload_begin (m : Manager) : Manager * Reload :=
  let p := length (promises m) in
  let m1 := set_waitTillReadyPromise (Some p) (set_promises (promises m ++ [Pending]) m) in
  let m2 := set_reloadHasBeenCalled true m1 in
  (m2, {| callbacks := p;
          entryCompilationID := compilationID m2;
          called := providers m2 |}).

(** The [try] block once the providers have settled. *)
Definition forceReload_body (answers : ProviderAnswers) (run : Reload)
    (m : Manager) : Manager * Completion :=
  match promise_all (answers <$> called run) with
  | Rejected err => (m, Throw err)
  | Fulfilled providersMatchers =>
      let fetched := concat providersMatchers in
      let '(all', duplicates') := groupMatcherResults fetched in
      let m1 := set_matchers (set_duplicates duplicates' (matchers m)) m in
      if (length (previousMatchers m1) =? length fetched)%nat
         && every_identical (previousMatchers m1) fetched
      then (m1, Return)
      else
        let m2 := set_previousMatchers fetched m1 in
        let m3 := set_matchers (set_all all' (matchers m2)) m2 in
        let m4 := set_matchers
                    (set_static (filter (λ x, isDynamic x = false) fetched) (matchers m3)) m3 in
        let m5 := set_matchers
                    (set_dynamic
                       (sortDynamicMatchers (filter (λ x, isDynamic x = true) fetched))
                       (matchers m4)) m4 in
        if decide (compilationID m5 ≠ entryCompilationID run)
        then (m5, Throw invariant_new_matchers)
        else (m5, Normal)
  end.

(** [forceReload] from the point where its [await] resumes. *)
Definition forceReload_resume (answers : ProviderAnswers) (run : Reload)
    (m : Manager) : Manager * Settled unit :=
  let '(m', c) :=
    try_catch_finally
      (forceReload_body answers run)
      (λ err m1, (settle (callbacks run) (RejectedWith err) m1, Normal))
      (λ m1, (settle (callbacks run) Resolved
                (set_lastCompilationID (entryCompilationID run) m1), Normal))
      m in
  (m', async_result c).

(** One whole [forceReload] call; [during] are the providers registered by
    [push] while the call awaits its providers. *)
Definition forceReload (answers : ProviderAnswers)
    (during : list RouteMatcherProvider) (m : Manager) : Manager * Settled unit :=
  let '(m1, run) := forceReload_begin m in
  forceReload_resume answers run (push during m1).

(** What the promise created by that call for [waitTillReady] settled to. *)
Definition reload_promise (answers : ProviderAnswers)
    (during : list RouteMatcherProvider) (m : Manager) : option PromiseState :=
  promises (forceReload answers during m).1 !! length (promises m).

(** The snapshot built from a fetched list of matchers. *)
Definition compiled (fetched : list RouteMatcher) : RouteMatchers :=
  {| static := filter (λ x, isDynamic x = false) fetched;
     dynamic := sortDynamicMatchers (filter (λ x, isDynamic x = true) fetched);
     duplicates := (groupMatcherResults fetched).2;
     all := (groupMatcherResults fetched).1 |}.

(** The state in which a reload resumes after its [await]. *)
Definition resumed (during : list RouteMatcherProvider) (m : Manager) : Manager :=
  push during (forceReload_begin m).1.

(** The three ways the [try] block of a reload ends. *)
Inductive reload_case (answers : ProviderAnswers)
    (during : list RouteMatcherProvider) (m : Manager)
    : Manager * Completion → Prop :=
  | reload_provider_failed err :
      promise_all (answers <$> providers m) = Rejected err →
      reload_case answers during m (resumed during m, Throw err)
  | reload_unchanged fetched :
      promise_all (answers <$> providers m) = Fulfilled fetched →
      Forall2 (λ a b, address a = address b) (previousMatchers m) (concat fetched) →
      reload_case answers during m
        (set_matchers (set_duplicates (groupMatcherResults (concat fetched)).2 (matchers m))
           (resumed during m), Return)
  | reload_rebuilt fetched :
      promise_all (answers <$> providers m) = Fulfilled fetched →
      ¬ Forall2 (λ a b, address a = address b) (previousMatchers m) (concat fetched) →
      reload_case answers during m
        (set_matchers (compiled (concat fetched))
           (set_previousMatchers (concat fetched) (resumed during m)),
         if decide (during = []) then Normal else Throw invariant_new_matchers).

Definition load (answers : ProviderAnswers)
    (during : list RouteMatcherProvider) (m : Manager) : Manager * Settled unit :=
  if reloadHasBeenCalled m then (m, Fulfilled ())
  else forceReload answers during (set_reloadHasBeenCalled true m).

Definition validate (matcher : RouteMatcher) (normalized : NormalizedMatchOptions)
    : Outcome (option RouteMatch) :=
  if isLocaleRouteMatcher matcher then
    match i18n (options normalized) with
    | None => Throws invariant_locale
    | Some info => Returns (matcher_match matcher (ArgI18n info))
    end
  else
    match i18n (options normalized) with
    | Some info =>
        if inferredFromDefault info
        then Returns (matcher_match matcher (ArgPathname (i18n_pathname info)))
        else Returns (matcher_match matcher (ArgNormalized normalized))
    | None => Returns (matcher_match matcher (ArgNormalized normalized))
    end.

(** [for (const matcher of matchers) { ...; yield match }] *)
Fixpoint yield_each (ms : list RouteMatcher) (normalized : NormalizedMatchOptions)
    : Generated :=
  match ms with
  | [] => {| events := []; finish := Returns () |}
  | matcher :: ms' =>
      match validate matcher normalized with
      | Throws e => {| events := [Validated matcher]; finish := Throws e |}
      | Returns None =>
          let rest := yield_each ms' normalized in
          {| events := Validated matcher :: events rest; finish := finish rest |}
      | Returns (Some r) =>
          let rest := yield_each ms' normalized in
          {| events := Validated matcher :: Yielded r :: events rest;
             finish := finish rest |}
      end
  end.

(** [for (const matcher of matchers) { ...; yield match; return null }] *)
Fixpoint yield_first (ms : list RouteMatcher) (normalized : NormalizedMatchOptions)
    : Generated :=
  match ms with
  | [] => {| events := []; finish := Returns () |}
  | matcher :: ms' =>
      match validate matcher normalized with
      | Throws e => {| events := [Validated matcher]; finish := Throws e |}
      | Returns None =>
          let rest := yield_first ms' normalized in
          {| events := Validated matcher :: events rest; finish := finish rest |}
      | Returns (Some r) =>
          {| events := [Validated matcher; Yielded r]; finish := Returns () |}
      end
  end.

(** One part of a generator body followed by the next. *)
Definition and_then (g1 g2 : Generated) : Generated :=
  match finish g1 with
  | Throws _ => g1
  | Returns _ => {| events := events g1 ++ events g2; finish := finish g2 |}
  end.

Definition matchAll (m : Manager) (pathname : string) (opts : MatchOptions)
    : Generated :=
  if decide (lastCompilationID m ≠ compilationID m) then
    {| events := []; finish := Throws invariant_not_loaded |}
  else
    let normalized := normalize pathname opts in
    if truthy (matchedOutputPathname (options normalized)) then
      match all (matchers m) !! default "" (matchedOutputPathname (options normalized)) with
      | None => {| events := []; finish := Returns () |}
      | Some ms => yield_first ms normalized
      end
    else
      and_then
        (if negb (isDynamicRoute pathname)
         then yield_each (static (matchers m)) normalized
         else {| events := []; finish := Returns () |})
        (yield_each (dynamic (matchers m)) normalized).

(** [match]: the first value of [matchAll], or [null]. *)
Definition match_ (m : Manager) (pathname : string) (opts : MatchOptions)
    : Outcome (option RouteMatch) :=
  let g := matchAll m pathname opts in
  match yields g with
  | r :: _ => Returns (Some r)
  | [] => match finish g with
          | Throws e => Throws e
          | Returns _ => Returns None
          end
  end.

(** The matches that the matchers of a list give for a query, in order. *)
Definition successes (normalized : NormalizedMatchOptions) (ms : list RouteMatcher)
    : list RouteMatch :=
  omap (λ x, match validate x normalized with
             | Returns (Some r) => Some r
             | _ => None
             end) ms.

(** Every matcher of a list answers [null] to a query. *)
Definition all_null (normalized : NormalizedMatchOptions) (ms : list RouteMatcher) : Prop :=
  Forall (λ x, validate x normalized = Returns None) ms.

End Manager.

(** [waitTillReady] once the promise it awaits has settled ([None]: the
    caller is still suspended).  A rejected promise makes the [await] throw,
    so the [delete] after it is not reached. *)
Definition waitTillReady (m : Manager) : option (Manager * Settled unit) :=
  match waitTillReadyPromise m with
  | None => Some (m, Fulfilled ())
  | Some p =>
      match promises m !! p with
      | Some Resolved => Some (set_waitTillReadyPromise None m, Fulfilled ())
      | Some (RejectedWith e) => Some (m, Rejected e)
      | _ => None
      end
  end.

(** ** Stand-ins for the imported helpers

    Simple instances of the helpers whose sources are not at hand, used to
    run the manager on concrete inputs. *)
Module Demo.

(** Raw options already in normalized shape, and a normalizer that only
    pairs them with the pathname. *)
Definition MatchOptions : Type := Options.
Definition normalize (pathname : string) (opts : MatchOptions) : NormalizedMatchOptions :=
  {| n_pathname := pathname; options := opts |}.

(** A pathname counts as a dynamic pattern when it has an opening bracket. *)
Fixpoint isDynamicRoute (s : string) : bool :=
  match s with
  | EmptyString => false
  | String c s' => bool_decide (c = "["%char) || isDynamicRoute s'
  end.

(** Modelled from the spec: [helpers/group-matcher-results] is not among the
    sources.  Matchers are partitioned by identity in input order; [all]
    maps every identity seen to the complete list of its matchers, and
    [duplicates] keeps the identities that have more than one. *)
Definition groupMatcherResults (ms : list RouteMatcher)
    : gmap string (list RouteMatcher) * gmap string (list RouteMatcher) :=
  let all' :=
    foldl (λ (acc : gmap string (list RouteMatcher)) x,
             <[identity x := default [] (acc !! identity x) ++ [x]]> acc) ∅ ms in
  (all', filter (λ kv, 1 < length kv.2) all').

(** The order of dynamic matchers is left as it is. *)
Definition sortDynamicMatchers (ms : list RouteMatcher) : list RouteMatcher := ms.

(** Modelled from the spec: [helpers/create-pathname-matcher] is not among
    the sources.  Only the static variant is built: it matches by exact
    string equality and binds no parameter. *)
Definition createPathnameMatcher (pattern : string) : PathnameMatcher :=
  {| isDynamicPathnameMatcher := false;
     pathname_match := λ p, if decide (p = pattern) then Some [] else None |}.

Definition definition_for (pathname : string) : RouteDefinition.t :=
  RouteDefinition.mk APP_PAGE pathname pathname pathname pathname [pathname].

Definition matcher_for (addr : nat) (pathname : string) : RouteMatcher :=
  DefaultRouteMatcher createPathnameMatcher addr (definition_for pathname).

Definition forceReload := forceReload groupMatcherResults sortDynamicMatchers.
Definition reload_promise := reload_promise groupMatcherResults sortDynamicMatchers.
Definition matchAll := matchAll MatchOptions normalize isDynamicRoute.

(** A manager with one provider registered and nothing compiled yet. *)
Definition one_provider : Manager := push [Provider 0] new_manager.

(** The provider answers with one static matcher for [/about]. *)
Definition about : RouteMatcher := matcher_for 0 "/about".
Definition answers_about : ProviderAnswers := λ _, Fulfilled [about].

(** The provider's [matchers()] call fails. *)
Definition answers_failing : ProviderAnswers := λ _, Rejected (Error "boom").

(** A locale-aware matcher object for [/about]; the [LocaleRouteMatcher]
    class is not among the sources. *)
Definition locale_about : RouteMatcher :=
  {| address := 1;
     identity := "/about";
     isDynamic := false;
     isLocaleRouteMatcher := true;
     matcher_match := λ arg,
       if decide (arg_pathname arg = "/about")
       then Some {| definition := definition_for "/about"; params := [] |}
       else None |}.

(** A dynamic matcher object for [/[slug]] that binds the whole pathname. *)
Definition slug : RouteMatcher :=
  {| address := 2;
     identity := "/[slug]";
     isDynamic := true;
     isLocaleRouteMatcher := false;
     matcher_match := λ arg,
       Some {| definition := definition_for "/[slug]";
               params := [("slug", ParamString (arg_pathname arg))] |} |}.

Definition answers_about_slug : ProviderAnswers := λ _, Fulfilled [slug; about].

(** The manager once a reload over [about] and [slug] has completed. *)
Definition loaded : Manager := (forceReload answers_about_slug [] one_provider).1.

(** Queries: plain, with an explicit output pathname, and with a locale
    inferred from the default. *)
Definition plain : MatchOptions :=
  {| i18n := None; matchedOutputPathname := None |}.
Definition exact_about : MatchOptions :=
  {| i18n := None; matchedOutputPathname := Some "/about" |}.
Definition inferred_en : MatchOptions :=
  {| i18n := Some {| detectedLocale := Some "en";
                     inferredFromDefault := true;
                     i18n_pathname := "/about" |};
     matchedOutputPathname := None |}.

End Demo.

(** ** [AppPageRouteMatcherProvider]

    The provider that reads the app paths manifest.  Its normalizers,
    [isAppPageRoute] and the [AppPageRouteMatcher] class are imported from
    files that are not at hand and are taken as they come. *)
Module AppPageRouteMatcherProvider.
Section Provider.
Variable isAppPageRoute : string → bool.
Variable normalize_pathname : string → string.
Variable normalize_filename : string → string.
Variable normalize_bundlePath : string → string.
Variable newAppPageRouteMatcher : RouteDefinition.t → RouteMatcher.

(** [Object.keys(manifest).filter((page) => isAppPageRoute(page))]; the
    manifest is the list of its entries in the order of [Object.keys]. *)
Definition pages (manifest : JsMap string) : list string :=
  filter (λ page, isAppPageRoute page = true) (map_keys manifest).

(** The first loop: one [push] for each page. *)
Definition collect (manifest : JsMap string) : AppPathsCollector.t :=
  (AppPathsCollector.push_all
     ((λ page, (normalize_pathname page, page)) <$> pages manifest)
     AppPathsCollector.empty).1.

(** The body of the second loop.  [None] stands for the two places where the
    loop would read [undefined] ([page] of an empty [appPaths], a page absent
    from the manifest), which the model does not follow further. *)
Definition define (manifest : JsMap string) (a : AppPaths) : option RouteDefinition.t :=
  match page a with
  | None => None
  | Some pg =>
      match map_get pg manifest with
      | None => None
      | Some entry =>
          Some (RouteDefinition.mk APP_PAGE (pathname a) pg
                  (normalize_bundlePath pg) (normalize_filename entry) (appPaths a))
      end
  end.

Definition prepare (manifest : JsMap string) : option (list RouteDefinition.t) :=
  mapM (define manifest) (AppPathsCollector.toSortedArray (collect manifest)).

(** The definition that the second loop builds from an aggregate, as a
    relation between the two. *)
Definition defined (manifest : JsMap string) (a : AppPaths)
    (d : RouteDefinition.t) : Prop :=
  RouteDefinition.kind d = APP_PAGE
  ∧ RouteDefinition.pathname d = pathname a
  ∧ RouteDefinition.appPaths d = appPaths a
  ∧ page a = Some (RouteDefinition.page d)
  ∧ RouteDefinition.bundlePath d = normalize_bundlePath (RouteDefinition.page d)
  ∧ ∃ entry, map_get (RouteDefinition.page d) manifest = Some entry
             ∧ RouteDefinition.filename d = normalize_filename entry.

Definition transform (manifest : JsMap string) : option (list RouteMatcher) :=
  match prepare manifest with
  | None => None
  | Some definitions => Some (newAppPageRouteMatcher <$> definitions)
  end.

End Provider.
End AppPageRouteMatcherProvider.

(** ** [DevAppPageRouteMatcherProvider] *)

(** [s.includes(sub)] *)
Fixpoint includes (sub s : string) : bool :=
  String.prefix sub s
  || match s with
     | EmptyString => false
     | String _ s' => includes sub s'
     end.

Module DevAppPageRouteMatcherProvider.

(** The three locals of [prepare] that its first loop fills; [routePages] is
    an object used as a map from page to filename. *)
Record Scan : Type := mkScan {
  routePages : gmap string string;
  routePathnames : list string;
  routeAppPaths : AppPathsCollector.t
}.

Section Provider.
(** [this.expression.test], the normalizers and the matcher class. *)
Variable expression_test : string → bool.
Variable normalize_page : string → string.
Variable normalize_pathname : string → string.
Variable normalize_bundlePath : string → string.
Variable newAppPageRouteMatcher : RouteDefinition.t → RouteMatcher.

(** One turn of the first loop. *)
Definition scan_file (st : Scan) (filename : string) : Scan :=
  if negb (expression_test filename) then st
  else
    let pg := normalize_page filename in
    if includes "/_" pg then st
    else
      let routePages' := <[pg := filename]> (routePages st) in
      let pathname := normalize_pathname filename in
      let '(collector, collected) := AppPathsCollector.push pathname pg (routeAppPaths st) in
      {| routePages := routePages';
         routePathnames := if (collected =? 1)%nat
                           then routePathnames st ++ [pathname]
                           else routePathnames st;
         routeAppPaths := collector |}.

Definition scan (files : list string) : Scan :=
  foldl scan_file
    {| routePages := ∅; routePathnames := []; routeAppPaths := AppPathsCollector.empty |}
    files.

(** The body of the second loop; [None] as for the manifest provider. *)
Definition define (st : Scan) (a : AppPaths) : option RouteDefinition.t :=
  match page a with
  | None => None
  | Some pg =>
      match routePages st !! pg with
      | None => None
      | Some filename =>
          Some (RouteDefinition.mk APP_PAGE (pathname a) pg
                  (normalize_bundlePath filename) filename (appPaths a))
      end
  end.

Definition prepare (files : list string) : option (list RouteDefinition.t) :=
  let st := scan files in
  mapM (define st) (AppPathsCollector.toSortedArray (routeAppPaths st)).

(** The definition that the second loop builds from an aggregate, as a
    relation between the two. *)
Definition defined (st : Scan) (a : AppPaths) (d : RouteDefinition.t) : Prop :=
  RouteDefinition.kind d = APP_PAGE
  ∧ RouteDefinition.pathname d = pathname a
  ∧ RouteDefinition.appPaths d = appPaths a
  ∧ page a = Some (RouteDefinition.page d)
  ∧ routePages st !! RouteDefinition.page d = Some (RouteDefinition.filename d)
  ∧ RouteDefinition.bundlePath d = normalize_bundlePath (RouteDefinition.filename d).

Definition transform (files : list string) : option (list RouteMatcher) :=
  match prepare files with
  | None => None
  | Some definitions => Some (newAppPageRouteMatcher <$> definitions)
  end.

(** The files that the first loop does not skip. *)
Definition accepted (filename : string) : bool :=
  expression_test filename && negb (includes "/_" (normalize_page filename)).

End Provider.
End DevAppPageRouteMatcherProvider.

(** ** Interleavings of the manager's operations

    A configuration is the manager together with the [forceReload] calls
    that are suspended at their [await] and the [waitTillReady] calls that
    are suspended at theirs, each with the promise it awaits.  The steps are
    [push], the start of a reload, the resumption of a suspended reload (with
    whatever its providers answered), the start of a [waitTillReady] that
    finds a promise in the field, and its resumption once that promise has
    settled: on a resolved promise it deletes the field, whatever promise the
    field holds by then; on a rejected one it throws and deletes nothing.
    [load] starts a reload as [forceReload] does, or does nothing, and a
    [waitTillReady] that finds no promise returns without a change. *)
Record Config : Type := mkConfig {
  manager : Manager;
  suspended : list Reload;
  waiting : list nat
}.

Section Interleaving.
Variable groupMatcherResults :
  list RouteMatcher →
  gmap string (list RouteMatcher) * gmap string (list RouteMatcher).
Variable sortDynamicMatchers : list RouteMatcher → list RouteMatcher.

Inductive step : Config → Config → Prop :=
  | step_push new m runs waits :
      step (mkConfig m runs waits) (mkConfig (push new m) runs waits)
  | step_begin m runs waits :
      step (mkConfig m runs waits)
           (mkConfig (forceReload_begin m).1 (runs ++ [(forceReload_begin m).2]) waits)
  | step_resume answers run m runs1 runs2 waits :
      step (mkConfig m (runs1 ++ run :: runs2) waits)
           (mkConfig
              (forceReload_resume groupMatcherResults sortDynamicMatchers answers run m).1
              (runs1 ++ runs2) waits)
  | step_wait_begin m runs waits p :
      waitTillReadyPromise m = Some p →
      step (mkConfig m runs waits) (mkConfig m runs (waits ++ [p]))
  | step_wait_resolved m runs waits1 waits2 p :
      promises m !! p = Some Resolved →
      step (mkConfig m runs (waits1 ++ p :: waits2))
           (mkConfig (set_waitTillReadyPromise None m) runs (waits1 ++ waits2))
  | step_wait_rejected m runs waits1 waits2 p e :
      promises m !! p = Some (RejectedWith e) →
      step (mkConfig m runs (waits1 ++ p :: waits2))
           (mkConfig m runs (waits1 ++ waits2)).

Inductive reachable : Config → Prop :=
  | reachable_new : reachable (mkConfig new_manager [] [])
  | reachable_step c c' : reachable c → step c c' → reachable c'.

(** [static], [dynamic] and [all] are those compiled from the list kept in
    [previousMatchers], or nothing has been compiled yet. *)
Definition snapshot_of_previous (m : Manager) : Prop :=
  (previousMatchers m = []
   ∧ static (matchers m) = [] ∧ dynamic (matchers m) = [] ∧ all (matchers m) = ∅)
  ∨ (static (matchers m) = filter (λ x, isDynamic x = false) (previousMatchers m)
     ∧ dynamic (matchers m)
       = sortDynamicMatchers (filter (λ x, isDynamic x = true) (previousMatchers m))
     ∧ all (matchers m) = (groupMatcherResults (previousMatchers m)).1).

(** Each suspended reload owns a promise that is still pending, no two own
    the same one, and no other promise is pending. *)
Definition promises_owned (c : Config) : Prop :=
  NoDup (callbacks <$> suspended c)
  ∧ ∀ i, promises (manager c) !! i = Some Pending ↔ i ∈ callbacks <$> suspended c.

End Interleaving.

(** A run in which a [waitTillReady] call outlives the reload it waits for:
    with one provider registered, a first reload starts and a call to
    [waitTillReady] suspends on its promise; the reload ends; a second reload
    starts and puts its own promise in the field; the [waitTillReady] call
    resumes and deletes the field. *)
Module DemoRun.

Definition first_started : Manager := (forceReload_begin Demo.one_provider).1.
Definition first : Reload := (forceReload_begin Demo.one_provider).2.
Definition first_ended : Manager :=
  (forceReload_resume Demo.groupMatcherResults Demo.sortDynamicMatchers
     Demo.answers_about_slug first first_started).1.
Definition second_started : Manager := (forceReload_begin first_ended).1.
Definition second : Reload := (forceReload_begin first_ended).2.
Definition field_deleted : Manager := set_waitTillReadyPromise None second_started.

End DemoRun.

(** Stand-ins for what the two providers import, used to run them on
    concrete inputs: every manifest key is an app page and every file is a
    page file, the pathname drops what follows the first [@] if any, and the
    other normalizers leave their argument as it is. *)
Module DemoProviders.

Fixpoint before_at (s : string) : string :=
  match s with
  | EmptyString => EmptyString
  | String c s' => if bool_decide (c = "@"%char) then EmptyString else String c (before_at s')
  end.

Definition accept_all (s : string) : bool := true.
Definition same (s : string) : string := s.

Definition prepare_manifest :=
  AppPageRouteMatcherProvider.prepare accept_all before_at same same.

Definition prepare_files :=
  DevAppPageRouteMatcherProvider.prepare accept_all same before_at same.

End DemoProviders.

Example collector_example :
  AppPathsCollector.toSortedArray
    (AppPathsCollector.push_all [("/p", "b"); ("/a", "z"); ("/p", "a")] AppPathsCollector.empty).1
  = [ mkAppPaths (Some "z") "/a" ["z"]; mkAppPaths (Some "b") "/p" ["a"; "b"] ].
Proof. vm_compute. reflexivity. Qed.

Example routes_example :
  AppPathsRoutes.toSortedArray
    (AppPathsRoutes.add_all [("/p", "b"); ("/a", "z"); ("/p", "a")] AppPathsRoutes.empty).1
  = [ Some (mkAppPaths (Some "z") "/a" ["z"]); Some (mkAppPaths (Some "b") "/p" ["a"; "b"]) ].
Proof. vm_compute. reflexivity. Qed.

(** * Properties *)

(** ** Sorting strings *)

Lemma js_sort_Sorted (l : list string) : Sorted String.le (js_sort l).
Proof. apply (Sorted_merge_sort String.le). Qed.

Lemma js_sort_Permutation (l : list string) : js_sort l ≡ₚ l.
Proof. apply (merge_sort_Permutation String.le). Qed.

(** The sorted array is determined by the multiset of its elements. *)
Lemma js_sort_perm (l1 l2 : list string) : l1 ≡ₚ l2 → js_sort l1 = js_sort l2.
Proof.
  intros Hperm.
  apply (Sorted_unique String.le); try apply js_sort_Sorted.
  by rewrite !js_sort_Permutation.
Qed.

Lemma js_sort_sorted_id (l : list string) : Sorted String.le l → js_sort l = l.
Proof.
  intros Hs. apply (Sorted_unique String.le); auto using js_sort_Sorted.
  apply js_sort_Permutation.
Qed.

Lemma js_sort_idemp (l : list string) : js_sort (js_sort l) = js_sort l.
Proof. apply js_sort_sorted_id, js_sort_Sorted. Qed.

Lemma js_sort_length (l : list string) : length (js_sort l) = length l.
Proof. apply Permutation_length, js_sort_Permutation. Qed.

Lemma js_sort_elem_of (x : string) (l : list string) : x ∈ js_sort l ↔ x ∈ l.
Proof. by rewrite js_sort_Permutation. Qed.

Lemma js_sort_singleton (x : string) : js_sort [x] = [x].
Proof. reflexivity. Qed.

(** In a sorted array the last element is the greatest. *)
Lemma sorted_last_greatest (l : list string) (g x : string) :
  Sorted String.le l → last l = Some g → x ∈ l → String.le x g.
Proof.
  intros Hs Hlast Hx.
  apply last_Some in Hlast as [l' ->].
  apply (Sorted_StronglySorted String.le) in Hs.
  apply elem_of_app in Hx as [Hx | Hx].
  - eapply (StronglySorted_app_1_elem_of String.le); [done | done | set_solver].
  - apply list_elem_of_singleton in Hx as ->. reflexivity.
Qed.

Lemma last_index {A} (l : list A) : l !! (length l - 1) = last l.
Proof. rewrite last_lookup. f_equal. lia. Qed.

(** ** The insertion-ordered map *)

Section JsMapFacts.
Context {V : Type}.
Implicit Types (m : JsMap V) (k : string) (v : V).

Lemma map_get_set_eq k v m : map_get k (map_set k v m) = Some v.
Proof.
  induction m as [| [k' v'] m IH]; simpl.
  - by rewrite decide_True.
  - destruct (decide (k = k')) as [-> | Hne]; simpl.
    + by rewrite decide_True.
    + by rewrite decide_False.
Qed.

Lemma map_get_set_ne k k' v m :
  k ≠ k' → map_get k' (map_set k v m) = map_get k' m.
Proof.
  intros Hne. induction m as [| [k0 v0] m IH]; simpl.
  - by rewrite decide_False.
  - destruct (decide (k = k0)) as [-> | Hne0]; simpl.
    + by rewrite !decide_False.
    + by rewrite IH.
Qed.

Lemma map_set_set k v w m : map_set k v (map_set k w m) = map_set k v m.
Proof.
  induction m as [| [k' v'] m IH]; simpl.
  - by rewrite decide_True.
  - destruct (decide (k = k')) as [-> | Hne]; simpl.
    + by rewrite decide_True.
    + by rewrite decide_False, IH.
Qed.

Lemma map_get_is_Some k m : is_Some (map_get k m) ↔ k ∈ map_keys m.
Proof.
  unfold map_keys. induction m as [| [k' v'] m IH]; simpl.
  - split; [by intros [? ?] | by intros ?%elem_of_nil].
  - rewrite elem_of_cons. destruct (decide (k = k')) as [-> | Hne].
    + split; eauto.
    + rewrite IH. split; [by right | by intros [? | ?]].
Qed.

Lemma map_get_None k m : map_get k m = None ↔ k ∉ map_keys m.
Proof. rewrite <- map_get_is_Some, eq_None_not_Some. done. Qed.

Lemma map_keys_set k v m :
  map_keys (map_set k v m) =
  match map_get k m with
  | Some _ => map_keys m
  | None => map_keys m ++ [k]
  end.
Proof.
  unfold map_keys. induction m as [| [k' v'] m IH]; csimpl; [done |].
  destruct (decide (k = k')) as [-> | Hne]; csimpl; [done |].
  rewrite IH. by destruct (map_get k m).
Qed.

Lemma map_keys_set_NoDup k v m :
  NoDup (map_keys m) → NoDup (map_keys (map_set k v m)).
Proof.
  intros Hnd. rewrite map_keys_set.
  destruct (map_get k m) eqn:Hget; [done |].
  apply map_get_None in Hget.
  apply NoDup_app. split_and!; [done | | apply NoDup_singleton].
  intros x Hx ->%list_elem_of_singleton. done.
Qed.

Lemma map_keys_set_elem_of k k' v m :
  k' ∈ map_keys (map_set k v m) ↔ k' = k ∨ k' ∈ map_keys m.
Proof.
  rewrite map_keys_set. destruct (map_get k m) eqn:Hget.
  - assert (k ∈ map_keys m) by (apply map_get_is_Some; eauto).
    split; [by right | by intros [-> | ?]].
  - rewrite elem_of_app, list_elem_of_singleton. tauto.
Qed.
End JsMapFacts.

(** ** The collector after a run of pushes *)


Lemma pages_of_cons_eq k p ps : pages_of k ((k, p) :: ps) = p :: pages_of k ps.
Proof. unfold pages_of. by rewrite filter_cons_True. Qed.

Lemma pages_of_cons_ne k k' p ps : k' ≠ k → pages_of k ((k', p) :: ps) = pages_of k ps.
Proof. intros. unfold pages_of. by rewrite filter_cons_False. Qed.

Lemma pages_of_perm k ps1 ps2 : ps1 ≡ₚ ps2 → pages_of k ps1 ≡ₚ pages_of k ps2.
Proof. intros Hp. unfold pages_of. by rewrite Hp. Qed.

Lemma pages_of_nil_iff k ps : pages_of k ps = [] ↔ k ∉ ps.*1.
Proof.
  induction ps as [| [k' p] ps IH]; csimpl.
  - split; [intros _; apply not_elem_of_nil | done].
  - rewrite not_elem_of_cons. destruct (decide (k' = k)) as [-> | Hne].
    + rewrite pages_of_cons_eq. split; [done | by intros [? _]].
    + rewrite pages_of_cons_ne, IH by done. split; [by split | by intros [_ ?]].
Qed.

Lemma push_unfold k p (c : AppPathsCollector.t) :
  AppPathsCollector.push k p c =
  (map_set k (default [] (map_get k c) ++ [p]) c,
   S (length (default [] (map_get k c)))).
Proof.
  unfold AppPathsCollector.push. cbv zeta.
  rewrite length_app. simpl. rewrite Nat.add_1_r. f_equal.
  destruct (length _ =? 0)%nat; [apply map_set_set | done].
Qed.

Lemma push_all_cons k p ps c :
  AppPathsCollector.push_all ((k, p) :: ps) c =
  let c1 := (AppPathsCollector.push k p c).1 in
  ((AppPathsCollector.push_all ps c1).1,
   (AppPathsCollector.push k p c).2 :: (AppPathsCollector.push_all ps c1).2).
Proof.
  cbn [AppPathsCollector.push_all].
  destruct (AppPathsCollector.push k p c) as [c1 n]. cbn [fst snd].
  by destruct (AppPathsCollector.push_all ps c1).
Qed.

(** What the map holds for [k] after the pushes [ps]. *)
Lemma map_get_push_all k ps (c : AppPathsCollector.t) :
  map_get k (AppPathsCollector.push_all ps c).1 =
  match map_get k c with
  | Some l => Some (l ++ pages_of k ps)
  | None => match pages_of k ps with [] => None | l => Some l end
  end.
Proof.
  revert c. induction ps as [| [k' p] ps IH]; intros c.
  - simpl. unfold pages_of. simpl. destruct (map_get k c); [by rewrite app_nil_r | done].
  - rewrite push_all_cons. cbv zeta. cbn [fst snd]. rewrite IH, push_unfold.
    cbn [fst snd]. destruct (decide (k' = k)) as [-> | Hne].
    + rewrite map_get_set_eq, pages_of_cons_eq.
      destruct (map_get k c); simpl; [by rewrite <- app_assoc | done].
    + rewrite map_get_set_ne, pages_of_cons_ne by done. done.
Qed.

Lemma map_keys_push_all_NoDup ps (c : AppPathsCollector.t) :
  NoDup (map_keys c) → NoDup (map_keys (AppPathsCollector.push_all ps c).1).
Proof.
  revert c. induction ps as [| [k p] ps IH]; intros c Hnd; [done |].
  rewrite push_all_cons. cbv zeta. cbn [fst snd]. apply IH.
  rewrite push_unfold. cbn [fst snd]. by apply map_keys_set_NoDup.
Qed.


Lemma aggregate_perm k l1 l2 : l1 ≡ₚ l2 → aggregate k l1 = aggregate k l2.
Proof.
  intros Hp. unfold aggregate. rewrite (js_sort_perm _ _ Hp).
  destruct l1, l2; try done.
  - by apply Permutation_nil_cons in Hp.
  - symmetry in Hp. by apply Permutation_nil_cons in Hp.
Qed.

Lemma get_after_pushes k ps :
  AppPathsCollector.get k (AppPathsCollector.push_all ps AppPathsCollector.empty).1
  = aggregate k (pages_of k ps).
Proof.
  unfold AppPathsCollector.get. rewrite map_get_push_all. simpl.
  unfold aggregate. destruct (pages_of k ps); [done |].
  by rewrite last_index.
Qed.

Lemma keys_after_pushes k ps :
  k ∈ map_keys (AppPathsCollector.push_all ps AppPathsCollector.empty).1 ↔ k ∈ ps.*1.
Proof.
  rewrite <- map_get_is_Some, map_get_push_all. simpl.
  destruct (pages_of k ps) eqn:Hp.
  - apply pages_of_nil_iff in Hp. split; [by intros [? ?] | done].
  - split; [| eauto]. intros _.
    destruct (decide (k ∈ ps.*1)) as [? | Hn]; [done |].
    apply pages_of_nil_iff in Hn. congruence.
Qed.

Lemma pathnames_after_pushes_perm ps1 ps2 :
  ps1 ≡ₚ ps2 →
  AppPathsCollector.pathnames (AppPathsCollector.push_all ps1 AppPathsCollector.empty).1 =
  AppPathsCollector.pathnames (AppPathsCollector.push_all ps2 AppPathsCollector.empty).1.
Proof.
  intros Hp. unfold AppPathsCollector.pathnames. apply js_sort_perm.
  apply NoDup_Permutation; try (apply map_keys_push_all_NoDup; constructor).
  intros k. rewrite !keys_after_pushes. by rewrite Hp.
Qed.

Lemma omap_ext_all {A B} (f g : A → option B) (l : list A) :
  (∀ x, f x = g x) → omap f l = omap g l.
Proof. intros Hfg. induction l as [| x l IH]; csimpl; [done |]. by rewrite Hfg, IH. Qed.

Lemma omap_keyed (f : string → option AppPaths) (l : list string) :
  (∀ k, k ∈ l → ∃ a, f k = Some a ∧ pathname a = k) →
  pathname <$> omap f l = l.
Proof.
  induction l as [| k l IH]; intros Hf; csimpl; [done |].
  destruct (Hf k) as (a & -> & <-); [left |].
  csimpl. f_equal. apply IH. intros k' Hk'. apply Hf. by right.
Qed.

Lemma aggregate_pushed k ps :
  k ∈ ps.*1 →
  aggregate k (pages_of k ps)
  = Some (mkAppPaths (last (js_sort (pages_of k ps))) k (js_sort (pages_of k ps))).
Proof.
  intros Hk. unfold aggregate. destruct (pages_of k ps) eqn:Hp; [| done].
  apply pages_of_nil_iff in Hp. done.
Qed.

Lemma pathnames_of_sorted_array ps :
  let c := (AppPathsCollector.push_all ps AppPathsCollector.empty).1 in
  pathname <$> AppPathsCollector.toSortedArray c = AppPathsCollector.pathnames c.
Proof.
  intros c. unfold AppPathsCollector.toSortedArray. apply omap_keyed.
  intros k Hk. unfold AppPathsCollector.pathnames in Hk.
  rewrite js_sort_elem_of in Hk. subst c. rewrite keys_after_pushes in Hk.
  rewrite get_after_pushes, aggregate_pushed by done. eauto.
Qed.

(** C4. For a fixed multiset of (pathname, page) pairs, [toSortedArray]
    returns the same value whatever the order of the [push] calls.  The
    aggregates come in lexicographic order of their pathnames, one for each
    pathname pushed; the [appPaths] of each is the sorted array of the pages
    pushed for its pathname, and its [page] is the last element of that
    array, which is the lexicographically greatest. *)
Theorem toSortedArray_push_order (ps1 ps2 : list (string * string)) :
  ps1 ≡ₚ ps2 →
  let out := AppPathsCollector.toSortedArray
               (AppPathsCollector.push_all ps1 AppPathsCollector.empty).1 in
  out = AppPathsCollector.toSortedArray
          (AppPathsCollector.push_all ps2 AppPathsCollector.empty).1
  ∧ Sorted String.le (pathname <$> out)
  ∧ NoDup (pathname <$> out)
  ∧ (∀ k, k ∈ pathname <$> out ↔ k ∈ ps1.*1)
  ∧ (∀ a, a ∈ out →
       Sorted String.le (appPaths a)
       ∧ appPaths a ≡ₚ pages_of (pathname a) ps1
       ∧ page a = last (appPaths a)
       ∧ ∃ g, page a = Some g ∧ ∀ x, x ∈ appPaths a → String.le x g).
Proof.
  intros Hperm out. subst out. rewrite pathnames_of_sorted_array. split_and!.
  - unfold AppPathsCollector.toSortedArray.
    rewrite (pathnames_after_pushes_perm _ _ Hperm).
    apply omap_ext_all. intros k. rewrite !get_after_pushes.
    by apply aggregate_perm, pages_of_perm.
  - apply js_sort_Sorted.
  - unfold AppPathsCollector.pathnames. rewrite js_sort_Permutation.
    apply map_keys_push_all_NoDup. constructor.
  - intros k. unfold AppPathsCollector.pathnames.
    by rewrite js_sort_elem_of, keys_after_pushes.
  - intros a Ha. unfold AppPathsCollector.toSortedArray in Ha.
    apply list_elem_of_omap in Ha as (k & Hk & Hget).
    unfold AppPathsCollector.pathnames in Hk.
    rewrite js_sort_elem_of, keys_after_pushes in Hk.
    rewrite get_after_pushes, aggregate_pushed in Hget by done.
    injection Hget as <-. simpl. split_and!.
    + apply js_sort_Sorted.
    + apply js_sort_Permutation.
    + done.
    + destruct (last (js_sort (pages_of k ps1))) as [g |] eqn:Hlast.
      * exists g. split; [done |]. intros x Hx.
        eapply sorted_last_greatest; eauto using js_sort_Sorted.
      * apply last_None in Hlast.
        apply (f_equal length) in Hlast. rewrite js_sort_length in Hlast.
        apply pages_of_nil_iff in Hk; [done |].
        by apply nil_length_inv.
Qed.

Lemma toSortedArray_push_order_witness :
  [("/p", "b"); ("/p", "a")] ≡ₚ [("/p", "a"); ("/p", "b")]
  ∧ AppPathsCollector.toSortedArray
      (AppPathsCollector.push_all [("/p", "b"); ("/p", "a")] AppPathsCollector.empty).1
    = AppPathsCollector.toSortedArray
        (AppPathsCollector.push_all [("/p", "a"); ("/p", "b")] AppPathsCollector.empty).1.
Proof.
  assert (H : [("/p", "b"); ("/p", "a")] ≡ₚ [("/p", "a"); ("/p", "b")])
    by apply perm_swap.
  split; [exact H |].
  exact (proj1 (toSortedArray_push_order _ _ H)).
Defined.

(** ** [AppPathsRoutes] against [AppPathsCollector] *)


Section SortedImage.
Context {V W : Type} (f : V → W).
Implicit Types (m : JsMap V) (k : string).

Lemma map_get_image k m : map_get k (prod_map id f <$> m) = f <$> map_get k m.
Proof.
  induction m as [| [k' v'] m IH]; csimpl; [done |].
  by destruct (decide (k = k')).
Qed.

Lemma map_set_image k v m :
  map_set k (f v) (prod_map id f <$> m) = prod_map id f <$> map_set k v m.
Proof.
  induction m as [| [k' v'] m IH]; csimpl; [done |].
  destruct (decide (k = k')); csimpl; [done | by rewrite IH].
Qed.

Lemma map_keys_image m : map_keys (prod_map id f <$> m) = map_keys m.
Proof.
  unfold map_keys. rewrite <- list_fmap_compose.
  apply list_fmap_ext. by intros ? [? ?].
Qed.
End SortedImage.

Lemma add_push_step k p c r :
  sorted_image c r →
  sorted_image (AppPathsCollector.push k p c).1 (AppPathsRoutes.add k p r).1
  ∧ (AppPathsRoutes.add k p r).2 = (AppPathsCollector.push k p c).2.
Proof.
  unfold sorted_image. intros ->. rewrite push_unfold.
  unfold AppPathsRoutes.add. rewrite map_get_image.
  destruct (map_get k c) as [stored |]; cbn [fmap option_fmap option_map default fst snd].
  - rewrite <- map_set_image.
    assert (Hs : js_sort (js_sort stored ++ [p]) = js_sort (stored ++ [p])).
    { apply js_sort_perm. by rewrite js_sort_Permutation. }
    rewrite Hs. split; [done |].
    rewrite js_sort_length, length_app. simpl. lia.
  - split; [| done]. rewrite <- map_set_image. simpl.
    by rewrite js_sort_singleton.
Qed.

Lemma add_all_cons k p ps r :
  AppPathsRoutes.add_all ((k, p) :: ps) r =
  let r1 := (AppPathsRoutes.add k p r).1 in
  ((AppPathsRoutes.add_all ps r1).1,
   (AppPathsRoutes.add k p r).2 :: (AppPathsRoutes.add_all ps r1).2).
Proof.
  cbn [AppPathsRoutes.add_all].
  destruct (AppPathsRoutes.add k p r) as [r1 n]. cbn [fst snd].
  by destruct (AppPathsRoutes.add_all ps r1).
Qed.

Lemma add_all_push_all ps c r :
  sorted_image c r →
  sorted_image (AppPathsCollector.push_all ps c).1 (AppPathsRoutes.add_all ps r).1
  ∧ (AppPathsRoutes.add_all ps r).2 = (AppPathsCollector.push_all ps c).2.
Proof.
  revert c r. induction ps as [| [k p] ps IH]; intros c r Hsim; [done |].
  rewrite push_all_cons, add_all_cons. cbv zeta. cbn [fst snd].
  destruct (add_push_step k p c r Hsim) as [Hsim1 ->].
  destruct (IH _ _ Hsim1) as [Hsim2 ->]. done.
Qed.

Lemma get_sorted_image k c r :
  sorted_image c r → AppPathsRoutes.get k r = AppPathsCollector.get k c.
Proof.
  intros ->. unfold AppPathsRoutes.get, AppPathsCollector.get.
  rewrite map_get_image. by destruct (map_get k c).
Qed.

Lemma pathnames_sorted_image c r :
  sorted_image c r → AppPathsRoutes.pathnames r = AppPathsCollector.pathnames c.
Proof.
  intros ->. unfold AppPathsRoutes.pathnames, AppPathsCollector.pathnames.
  by rewrite map_keys_image.
Qed.

Lemma fmap_omap_total {A B} (f : A → option B) (l : list A) :
  (∀ x, x ∈ l → is_Some (f x)) → f <$> l = Some <$> omap f l.
Proof.
  induction l as [| x l IH]; intros Hf; csimpl; [done |].
  destruct (Hf x) as [y Hy]; [left |]. rewrite Hy. csimpl.
  f_equal. apply IH. intros x' Hx'. apply Hf. by right.
Qed.

Lemma toSortedArray_sorted_image c r :
  sorted_image c r →
  AppPathsRoutes.toSortedArray r = Some <$> AppPathsCollector.toSortedArray c.
Proof.
  intros Hsim. unfold AppPathsRoutes.toSortedArray, AppPathsCollector.toSortedArray.
  rewrite (pathnames_sorted_image _ _ Hsim).
  rewrite <- fmap_omap_total.
  - apply list_fmap_ext. intros _ k _. by apply get_sorted_image.
  - intros k Hk. unfold AppPathsCollector.pathnames in Hk.
    rewrite js_sort_elem_of in Hk. apply map_get_is_Some in Hk as [stored Hst].
    unfold AppPathsCollector.get. rewrite Hst. eauto.
Qed.

(** C10. Over any sequence of (pathname, page) insertions, [AppPathsRoutes]
    and [AppPathsCollector] cannot be told apart: [add] and [push] return
    the same counts, [pathnames] and [get] agree, and [toSortedArray]
    returns equal lists of aggregates (none of them [null]). *)
Theorem routes_equivalent_to_collector (ps : list (string * string)) :
  let c := AppPathsCollector.push_all ps AppPathsCollector.empty in
  let r := AppPathsRoutes.add_all ps AppPathsRoutes.empty in
  r.2 = c.2
  ∧ AppPathsRoutes.toSortedArray r.1 = Some <$> AppPathsCollector.toSortedArray c.1
  ∧ AppPathsRoutes.pathnames r.1 = AppPathsCollector.pathnames c.1
  ∧ ∀ k, AppPathsRoutes.get k r.1 = AppPathsCollector.get k c.1.
Proof.
  intros c r.
  destruct (add_all_push_all ps AppPathsCollector.empty AppPathsRoutes.empty)
    as [Hsim Hcount]; [done |].
  fold c in Hsim, Hcount. fold r in Hsim, Hcount.
  split_and!; [done | | |].
  - by apply toSortedArray_sorted_image.
  - by apply pathnames_sorted_image.
  - intros k. by apply get_sorted_image.
Qed.

(** ** The route matcher manager *)

(** The check made by [forceReload] before it rebuilds the snapshot holds
    exactly when the two arrays hold the same objects, element by element. *)
Lemma every_identical_Forall2 (previous current : list RouteMatcher) :
  (length previous =? length current)%nat && every_identical previous current = true
  ↔ Forall2 (λ a b, address a = address b) previous current.
Proof.
  revert current. induction previous as [| a previous IH]; intros [| b current]; simpl.
  - split; [constructor | done].
  - split; [done | intros H; inversion H].
  - split; [done | intros H; inversion H].
  - specialize (IH current). unfold same_object.
    destruct (Nat.eqb_spec (address a) (address b)) as [Hab | Hab]; simpl.
    + rewrite IH. split; [by constructor | by intros H; inversion H].
    + rewrite andb_false_r. split; [done | intros H; inversion H; done].
Qed.

Section ManagerFacts.
Variable MatchOptions : Type.
Variable normalize : string → MatchOptions → NormalizedMatchOptions.
Variable isDynamicRoute : string → bool.
Variable groupMatcherResults :
  list RouteMatcher →
  gmap string (list RouteMatcher) * gmap string (list RouteMatcher).
Variable sortDynamicMatchers : list RouteMatcher → list RouteMatcher.

Local Abbreviation run_reload := (forceReload groupMatcherResults sortDynamicMatchers).
Local Abbreviation run_body := (forceReload_body groupMatcherResults sortDynamicMatchers).
Local Abbreviation run_promise := (reload_promise groupMatcherResults sortDynamicMatchers).
Local Abbreviation run_matchAll := (matchAll MatchOptions normalize isDynamicRoute).
Local Abbreviation run_match := (match_ MatchOptions normalize isDynamicRoute).
Local Abbreviation snapshot_of := (compiled groupMatcherResults sortDynamicMatchers).
Local Abbreviation run_case := (reload_case groupMatcherResults sortDynamicMatchers).



Lemma forceReload_begin_run m :
  (forceReload_begin m).2 =
  {| callbacks := length (promises m);
     entryCompilationID := compilationID m;
     called := providers m |}.
Proof. reflexivity. Qed.

Lemma resumed_promise during m :
  promises (resumed during m) !! length (promises m) = Some Pending.
Proof.
  unfold resumed. simpl. rewrite lookup_app_r by lia.
  by rewrite Nat.sub_diag.
Qed.


Lemma resumed_fields during m :
  providers (resumed during m) = providers m ++ during
  ∧ matchers (resumed during m) = matchers m
  ∧ previousMatchers (resumed during m) = previousMatchers m
  ∧ lastCompilationID (resumed during m) = lastCompilationID m.
Proof. done. Qed.

(** The [try] block with its sequence of assignments gathered. *)
Lemma forceReload_body_eq answers run m :
  run_body answers run m =
  match promise_all (answers <$> called run) with
  | Rejected err => (m, Throw err)
  | Fulfilled providersMatchers =>
      let fetched := concat providersMatchers in
      if (length (previousMatchers m) =? length fetched)%nat
         && every_identical (previousMatchers m) fetched
      then (set_matchers (set_duplicates (groupMatcherResults fetched).2 (matchers m)) m,
            Return)
      else (set_matchers (snapshot_of fetched) (set_previousMatchers fetched m),
            if decide (compilationID m ≠ entryCompilationID run)
            then Throw invariant_new_matchers else Normal)
  end.
Proof.
  unfold forceReload_body, compiled.
  destruct (promise_all (answers <$> called run)) as [fetched | err]; [| done].
  cbv zeta. destruct (groupMatcherResults (concat fetched)) as [all' duplicates'].
  cbn [previousMatchers set_matchers fst snd].
  destruct (_ && _); [done |].
  unfold compilationID. cbn [providers set_matchers set_previousMatchers].
  by destruct (decide (_ ≠ _)).
Qed.

Lemma forceReload_body_cases answers during m :
  run_case answers during m
    (run_body answers (forceReload_begin m).2 (resumed during m)).
Proof.
  rewrite forceReload_body_eq, forceReload_begin_run. cbn [called entryCompilationID].
  destruct (resumed_fields during m) as (Hprov & Hmat & Hprev & _).
  destruct (promise_all (answers <$> providers m)) as [fetched | err] eqn:Hall.
  - cbv zeta. rewrite Hprev, Hmat.
    destruct (_ && _) eqn:Hsame.
    + apply every_identical_Forall2 in Hsame. by apply reload_unchanged.
    + assert (Hdiff : ¬ Forall2 (λ a b, address a = address b)
                          (previousMatchers m) (concat fetched)).
      { rewrite <- every_identical_Forall2. by rewrite Hsame. }
      pose proof (reload_rebuilt groupMatcherResults sortDynamicMatchers
                    answers during m fetched Hall Hdiff) as Hcase.
      unfold compilationID. rewrite Hprov, length_app.
      destruct during as [| d during].
      * rewrite decide_False by (simpl; lia). exact Hcase.
      * rewrite decide_True by (simpl; lia). exact Hcase.
  - by apply reload_provider_failed.
Qed.

Lemma settle_fields p s m :
  providers (settle p s m) = providers m
  ∧ matchers (settle p s m) = matchers m
  ∧ previousMatchers (settle p s m) = previousMatchers m
  ∧ lastCompilationID (settle p s m) = lastCompilationID m.
Proof. unfold settle. by destruct (promises m !! p) as [[] |]. Qed.

Lemma settle_pending p s m :
  promises m !! p = Some Pending → promises (settle p s m) !! p = Some s.
Proof.
  intros Hp. unfold settle. rewrite Hp. cbn [promises set_promises].
  apply list_lookup_insert_eq. by eapply lookup_lt_Some.
Qed.

Lemma settle_settled p s m :
  promises m !! p ≠ Some Pending → settle p s m = m.
Proof. intros Hp. unfold settle. by destruct (promises m !! p) as [[] |]. Qed.

Lemma reload_case_frame answers during m m1 c :
  run_case answers during m (m1, c) →
  promises m1 = promises (resumed during m)
  ∧ providers m1 = providers m ++ during.
Proof. by inversion 1. Qed.

Lemma forceReload_eq answers during m :
  run_reload answers during m =
  forceReload_resume groupMatcherResults sortDynamicMatchers answers
    (forceReload_begin m).2 (resumed during m).
Proof. unfold forceReload, resumed. by destruct (forceReload_begin m). Qed.

(** One whole reload: the [try] block, then [catch], then [finally]. *)
Lemma forceReload_summary answers during m :
  ∃ m1 c,
    run_case answers during m (m1, c)
    ∧ (run_reload answers during m).2 = Fulfilled ()
    ∧ matchers (run_reload answers during m).1 = matchers m1
    ∧ previousMatchers (run_reload answers during m).1 = previousMatchers m1
    ∧ providers (run_reload answers during m).1 = providers m ++ during
    ∧ lastCompilationID (run_reload answers during m).1 = compilationID m
    ∧ run_promise answers during m
      = Some (match c with Throw err => RejectedWith err | _ => Resolved end).
Proof.
  pose proof (forceReload_body_cases answers during m) as Hcase.
  unfold reload_promise. rewrite forceReload_eq.
  unfold forceReload_resume, try_catch_finally.
  rewrite forceReload_begin_run in *. cbn [callbacks entryCompilationID].
  destruct (run_body _ _ _) as [m1 c]. exists m1, c.
  destruct (reload_case_frame _ _ _ _ _ Hcase) as [Hpr Hprov].
  pose proof (resumed_promise during m) as Hpend. rewrite <- Hpr in Hpend.
  split; [done |].
  set (p := length (promises m)) in *.
  assert (Hfin : ∀ m2 s, promises m2 !! p = Some s → s ≠ Pending →
            promises (settle p Resolved (set_lastCompilationID (compilationID m) m2)) !! p
            = Some s).
  { intros m2 s Hs Hne. rewrite settle_settled; [done |].
    cbn [promises set_lastCompilationID]. rewrite Hs. by intros [= ->]. }
  destruct c as [| | err]; cbn [fst snd async_result].
  - destruct (settle_fields p Resolved (set_lastCompilationID (compilationID m) m1))
      as (-> & -> & -> & ->).
    split_and!; try done. by apply settle_pending.
  - destruct (settle_fields p Resolved (set_lastCompilationID (compilationID m) m1))
      as (-> & -> & -> & ->).
    split_and!; try done. by apply settle_pending.
  - destruct (settle_fields p Resolved
                (set_lastCompilationID (compilationID m) (settle p (RejectedWith err) m1)))
      as (-> & -> & -> & ->).
    destruct (settle_fields p (RejectedWith err) m1) as (Hp1 & Hm1 & Hpm1 & _).
    cbn [providers matchers previousMatchers lastCompilationID set_lastCompilationID].
    split_and!; try done; try congruence.
    apply Hfin; [by apply settle_pending | done].
Qed.

(** The version recorded by a reload is the one read at its entry, and the
    call itself completes, however its [try] block ended. *)
Lemma forceReload_records_entry_version answers during m :
  lastCompilationID (run_reload answers during m).1 = compilationID m
  ∧ (run_reload answers during m).2 = Fulfilled ().
Proof.
  destruct (forceReload_summary answers during m)
    as (m1 & c & _ & Hres & _ & _ & _ & Hlast & _). done.
Qed.

(** A push during a reload that rebuilds the snapshot makes it fail. *)
Lemma forceReload_version_changed answers during m fetched :
  promise_all (answers <$> providers m) = Fulfilled fetched →
  ¬ Forall2 (λ a b, address a = address b) (previousMatchers m) (concat fetched) →
  during ≠ [] →
  run_promise answers during m = Some (RejectedWith invariant_new_matchers)
  ∧ matchers (run_reload answers during m).1 = snapshot_of (concat fetched)
  ∧ lastCompilationID (run_reload answers during m).1 = compilationID m
  ∧ compilationID (run_reload answers during m).1 ≠ compilationID m.
Proof.
  intros Hall Hdiff Hdur.
  destruct (forceReload_summary answers during m)
    as (m1 & c & Hcase & _ & Hmat & _ & Hprov & Hlast & Hpromise).
  inversion Hcase as [err Herr | fetched' Hall' Hsame | fetched' Hall' _]; subst;
    rewrite Hall in *; try done; simplify_eq.
  rewrite decide_False in Hpromise by done.
  rewrite Hmat, Hlast, Hpromise. split_and!; try done.
  unfold compilationID. rewrite Hprov, length_app.
  destruct during; [done | simpl; lia].
Qed.

(** C1 (as amended). A reload fails when its [try] block throws, which
    rejects the promise it keeps for [waitTillReady].  A reload that fails
    either had a provider whose [matchers()] call threw, and then the four
    fields of the snapshot are exactly as they were before the call; or it
    failed at the check of the version counter, which comes last: the four
    fields then hold the complete snapshot compiled from the newly fetched
    list. *)
Theorem forceReload_failure_snapshot answers during m e :
  run_promise answers during m = Some (RejectedWith e) →
  (promise_all (answers <$> providers m) = Rejected e
   ∧ matchers (run_reload answers during m).1 = matchers m)
  ∨ (∃ fetched,
       promise_all (answers <$> providers m) = Fulfilled fetched
       ∧ during ≠ []
       ∧ e = invariant_new_matchers
       ∧ matchers (run_reload answers during m).1 = snapshot_of (concat fetched)).
Proof.
  intros Hfail.
  destruct (forceReload_summary answers during m)
    as (m1 & c & Hcase & _ & Hmat & _ & _ & _ & Hpromise).
  rewrite Hpromise in Hfail. rewrite Hmat.
  inversion Hcase as [err Herr | fetched Hall Hsame | fetched Hall Hdiff]; subst.
  - left. by simplify_eq.
  - done.
  - right. exists fetched. destruct (decide (during = [])); [done |].
    by simplify_eq.
Qed.

(** The short-circuit of [forceReload], in terms of [previousMatchers]. *)
Lemma forceReload_short_circuit answers during m fetched :
  promise_all (answers <$> providers m) = Fulfilled fetched →
  Forall2 (λ a b, address a = address b) (previousMatchers m) (concat fetched) →
  static (matchers (run_reload answers during m).1) = static (matchers m)
  ∧ dynamic (matchers (run_reload answers during m).1) = dynamic (matchers m)
  ∧ all (matchers (run_reload answers during m).1) = all (matchers m)
  ∧ previousMatchers (run_reload answers during m).1 = previousMatchers m
  ∧ duplicates (matchers (run_reload answers during m).1)
    = (groupMatcherResults (concat fetched)).2.
Proof.
  intros Hall Hsame.
  destruct (forceReload_summary answers during m)
    as (m1 & c & Hcase & _ & Hmat & Hprev & _ & _ & _).
  rewrite Hmat, Hprev.
  inversion Hcase as [err Herr | fetched' Hall' _ | fetched' Hall' Hdiff]; subst;
    rewrite Hall in *; simplify_eq; done.
Qed.

(** After a reload whose providers all answered, [previousMatchers] holds
    the objects of the list it fetched. *)
Lemma forceReload_previousMatchers answers during m fetched :
  promise_all (answers <$> providers m) = Fulfilled fetched →
  Forall2 (λ a b, address a = address b)
    (previousMatchers (run_reload answers during m).1) (concat fetched).
Proof.
  intros Hall.
  destruct (forceReload_summary answers during m)
    as (m1 & c & Hcase & _ & _ & Hprev & _ & _ & _).
  rewrite Hprev.
  inversion Hcase as [err Herr | fetched' Hall' Hsame | fetched' Hall' Hdiff]; subst;
    rewrite Hall in *; simplify_eq.
  - done.
  - cbn [previousMatchers set_matchers set_previousMatchers].
    apply Forall_Forall2_diag, Forall_true. done.
Qed.

Lemma same_objects_trans (l1 l2 l3 : list RouteMatcher) :
  Forall2 (λ a b, address a = address b) l1 l2 →
  Forall2 (λ a b, address a = address b) l2 l3 →
  Forall2 (λ a b, address a = address b) l1 l3.
Proof.
  intros H12. revert l3. induction H12 as [| a b l1 l2 Hab _ IH]; intros l3 H23.
  - by inversion H23.
  - inversion H23 as [| ? c ? l3' Hbc H23']; subst.
    constructor; [congruence | by apply IH].
Qed.

(** C6. Two reloads in a row whose providers all answer: when the list
    fetched by the second holds the same objects as the list fetched by the
    first, element by element and in order, the second leaves [static] and
    [dynamic] (and [all]) as they are, and still replaces [duplicates] by
    the map computed from its own list. *)
Theorem forceReload_identical_list
    answers1 during1 answers2 during2 m fetched1 fetched2 :
  promise_all (answers1 <$> providers m) = Fulfilled fetched1 →
  promise_all (answers2 <$> providers (run_reload answers1 during1 m).1)
    = Fulfilled fetched2 →
  Forall2 (λ a b, address a = address b) (concat fetched1) (concat fetched2) →
  static (matchers (run_reload answers2 during2 (run_reload answers1 during1 m).1).1)
    = static (matchers (run_reload answers1 during1 m).1)
  ∧ dynamic (matchers (run_reload answers2 during2 (run_reload answers1 during1 m).1).1)
    = dynamic (matchers (run_reload answers1 during1 m).1)
  ∧ all (matchers (run_reload answers2 during2 (run_reload answers1 during1 m).1).1)
    = all (matchers (run_reload answers1 during1 m).1)
  ∧ duplicates (matchers (run_reload answers2 during2 (run_reload answers1 during1 m).1).1)
    = (groupMatcherResults (concat fetched2)).2.
Proof.
  intros Hall1 Hall2 Hsame.
  pose proof (forceReload_previousMatchers answers1 during1 m fetched1 Hall1) as Hprev.
  destruct (forceReload_short_circuit answers2 during2 _ fetched2 Hall2
              (same_objects_trans _ _ _ Hprev Hsame)) as (Hs & Hd & Ha & _ & Hdup).
  done.
Qed.

(** *** Matching *)

Lemma consulted_fmap_Validated (ms : list RouteMatcher) (rest : list Event) :
  omap (λ ev, match ev with Validated x => Some x | Yielded _ => None end)
       ((Validated <$> ms) ++ rest)
  = ms ++ omap (λ ev, match ev with Validated x => Some x | Yielded _ => None end) rest.
Proof. induction ms as [| x ms IH]; csimpl; [done | by rewrite IH]. Qed.

Lemma yields_fmap_Validated (ms : list RouteMatcher) (rest : list Event) :
  omap (λ ev, match ev with Yielded r => Some r | Validated _ => None end)
       ((Validated <$> ms) ++ rest)
  = omap (λ ev, match ev with Yielded r => Some r | Validated _ => None end) rest.
Proof. induction ms as [| x ms IH]; csimpl; [done | by rewrite IH]. Qed.

(** The loop that yields the first match and stops. *)
Lemma yield_first_cases ms n :
  (∃ pre x post r,
      ms = pre ++ x :: post ∧ all_null n pre ∧ validate x n = Returns (Some r)
      ∧ yield_first ms n
        = {| events := (Validated <$> pre) ++ [Validated x; Yielded r];
             finish := Returns () |})
  ∨ (∃ pre x post e,
      ms = pre ++ x :: post ∧ all_null n pre ∧ validate x n = Throws e
      ∧ yield_first ms n
        = {| events := Validated <$> (pre ++ [x]); finish := Throws e |})
  ∨ (all_null n ms
     ∧ yield_first ms n = {| events := Validated <$> ms; finish := Returns () |}).
Proof.
  induction ms as [| x ms IH].
  - right. right. split; [constructor | done].
  - cbn [yield_first]. destruct (validate x n) as [[r |] | e] eqn:Hx.
    + left. exists [], x, ms, r. split_and!; first [done | constructor].
    + destruct IH as [(pre & y & post & r & -> & Hpre & Hy & ->)
                     | [(pre & y & post & e & -> & Hpre & Hy & ->) | [Hall ->]]].
      * left. exists (x :: pre), y, post, r.
        split_and!; first [done | by constructor].
      * right. left. exists (x :: pre), y, post, e.
        split_and!; first [done | by constructor].
      * right. right. split; [by constructor | done].
    + right. left. exists [], x, ms, e. split_and!; first [done | constructor].
Qed.

Lemma yield_first_at_most_one ms n : length (yields (yield_first ms n)) ≤ 1.
Proof.
  destruct (yield_first_cases ms n)
    as [(pre & y & post & r & _ & _ & _ & ->)
       | [(pre & y & post & e & _ & _ & _ & ->) | [_ ->]]];
    unfold yields; cbn [events].
  - rewrite yields_fmap_Validated. simpl. lia.
  - rewrite <- (app_nil_r (Validated <$> _)), yields_fmap_Validated. simpl. lia.
  - rewrite <- (app_nil_r (Validated <$> _)), yields_fmap_Validated. simpl. lia.
Qed.

(** The loop that yields every match. *)
Lemma yield_each_spec ms n :
  consulted (yield_each ms n) `prefix_of` ms
  ∧ yields (yield_each ms n) = successes n (consulted (yield_each ms n))
  ∧ (finish (yield_each ms n) = Returns () → consulted (yield_each ms n) = ms)
  ∧ (∀ e, finish (yield_each ms n) = Throws e →
       ∃ pre x, consulted (yield_each ms n) = pre ++ [x] ∧ validate x n = Throws e).
Proof.
  induction ms as [| x ms (IHpre & IHy & IHret & IHthrow)].
  - by split_and!.
  - cbn [yield_each]. unfold successes in *.
    destruct (validate x n) as [[r |] | e] eqn:Hx;
      unfold consulted, yields in *; cbn [events finish]; csimpl; rewrite ?Hx.
    + split_and!.
      * by apply prefix_cons.
      * by rewrite IHy.
      * intros Hret. by rewrite IHret.
      * intros e He. destruct (IHthrow e He) as (pre & y & -> & Hy).
        by exists (x :: pre), y.
    + split_and!.
      * by apply prefix_cons.
      * done.
      * intros Hret. by rewrite IHret.
      * intros e He. destruct (IHthrow e He) as (pre & y & -> & Hy).
        by exists (x :: pre), y.
    + split_and!.
      * apply prefix_cons, prefix_nil.
      * done.
      * done.
      * intros e' [= <-]. by exists [], x.
Qed.

Lemma successes_app n l1 l2 : successes n (l1 ++ l2) = successes n l1 ++ successes n l2.
Proof. apply omap_app. Qed.

Lemma matchAll_stale_eq m pathname opts :
  lastCompilationID m ≠ compilationID m →
  run_matchAll m pathname opts
    = {| events := []; finish := Throws invariant_not_loaded |}.
Proof. intros Hstale. unfold matchAll. by rewrite decide_True. Qed.

(** C2. When the version last compiled differs from the version counter,
    [matchAll] throws the invariant error at once: no matcher is handed to
    [validate] and nothing is yielded, and [match] throws the same error. *)
Theorem matchAll_stale m pathname opts :
  lastCompilationID m ≠ compilationID m →
  run_matchAll m pathname opts
    = {| events := []; finish := Throws invariant_not_loaded |}
  ∧ consulted (run_matchAll m pathname opts) = []
  ∧ yields (run_matchAll m pathname opts) = []
  ∧ run_match m pathname opts = Throws invariant_not_loaded.
Proof.
  intros Hstale. unfold match_, matchAll. by rewrite decide_True.
Qed.

(** Registering providers after a compilation makes the snapshot stale. *)
Lemma matchAll_after_push m new pathname opts :
  lastCompilationID m = compilationID m → new ≠ [] →
  run_matchAll (push new m) pathname opts
    = {| events := []; finish := Throws invariant_not_loaded |}.
Proof.
  intros Hgood Hnew. apply matchAll_stale_eq.
  unfold compilationID, push in *. cbn [lastCompilationID providers set_providers].
  rewrite length_app, Hgood. destruct new; [done | simpl; lia].
Qed.

(** C5. A query whose normalized options name an output pathname (a
    non-empty one, as the test is on truthiness) is answered from the
    [all] entry of that pathname alone: its matchers are handed to
    [validate] in stored order up to the first that matches, that match is
    yielded and the generator stops; if one throws the generator ends with
    that error; otherwise every matcher of the entry answered [null] and
    nothing is yielded (an absent entry counts as empty).  At most one
    match is yielded, and the [static] and [dynamic] arrays play no part. *)
Theorem matchAll_exact_output m pathname opts p :
  lastCompilationID m = compilationID m →
  matchedOutputPathname (options (normalize pathname opts)) = Some p →
  p ≠ "" →
  let n := normalize pathname opts in
  let entry := default [] (all (matchers m) !! p) in
  let g := run_matchAll m pathname opts in
  ((∃ pre x post r,
       entry = pre ++ x :: post ∧ all_null n pre ∧ validate x n = Returns (Some r)
       ∧ g = {| events := (Validated <$> pre) ++ [Validated x; Yielded r];
                finish := Returns () |})
   ∨ (∃ pre x post e,
       entry = pre ++ x :: post ∧ all_null n pre ∧ validate x n = Throws e
       ∧ g = {| events := Validated <$> (pre ++ [x]); finish := Throws e |})
   ∨ (all_null n entry
      ∧ g = {| events := Validated <$> entry; finish := Returns () |}))
  ∧ length (yields g) ≤ 1
  ∧ ∀ s d,
      run_matchAll (set_matchers (set_static s (set_dynamic d (matchers m))) m)
        pathname opts = g.
Proof.
  intros Hgood Hout Hp n entry g.
  assert (Hg : g = yield_first entry n).
  { subst g entry n. unfold matchAll. rewrite decide_False by (by intros ?).
    rewrite Hout. cbn [truthy default id]. rewrite bool_decide_true by done.
    by destruct (all (matchers m) !! p). }
  split_and!.
  - rewrite Hg. apply yield_first_cases.
  - rewrite Hg. apply yield_first_at_most_one.
  - intros s d. rewrite Hg. subst entry n. unfold matchAll.
    cbn [lastCompilationID compilationID providers set_matchers matchers
         all set_static set_dynamic].
    unfold compilationID. cbn [providers set_matchers].
    fold (compilationID m). rewrite decide_False by (by intros ?).
    rewrite Hout. cbn [truthy default id]. rewrite bool_decide_true by done.
    by destruct (all (matchers m) !! p).
Qed.

Lemma and_then_returns g1 g2 :
  finish g1 = Returns () →
  and_then g1 g2 = {| events := events g1 ++ events g2; finish := finish g2 |}.
Proof. intros H. unfold and_then. by rewrite H. Qed.

Lemma and_then_throws g1 g2 e : finish g1 = Throws e → and_then g1 g2 = g1.
Proof. intros H. unfold and_then. by rewrite H. Qed.

(** One loop after the other is one loop over both arrays. *)
Lemma yield_each_app ms1 ms2 n :
  and_then (yield_each ms1 n) (yield_each ms2 n) = yield_each (ms1 ++ ms2) n.
Proof.
  induction ms1 as [| x ms1 IH].
  - unfold and_then. cbn. by destruct (yield_each ms2 n).
  - cbn [yield_each app]. rewrite <- IH. unfold and_then.
    destruct (validate x n) as [[r |] | e]; cbn [finish events]; [| | done].
    + destruct (finish (yield_each ms1 n)) eqn:Hf; cbn [events finish app];
        by rewrite ?Hf.
    + destruct (finish (yield_each ms1 n)) eqn:Hf; cbn [events finish app];
        by rewrite ?Hf.
Qed.

(** The loop that yields every match either walks the whole array, no
    matcher throwing, or stops at the first matcher on which [validate]
    throws, with that error. *)
Lemma yield_each_cases ms n :
  (Forall (λ y, ∀ e, validate y n ≠ Throws e) ms
   ∧ finish (yield_each ms n) = Returns ()
   ∧ consulted (yield_each ms n) = ms
   ∧ yields (yield_each ms n) = successes n ms)
  ∨ (∃ pre x post e,
       ms = pre ++ x :: post
       ∧ Forall (λ y, ∀ e', validate y n ≠ Throws e') pre
       ∧ validate x n = Throws e
       ∧ finish (yield_each ms n) = Throws e
       ∧ consulted (yield_each ms n) = pre ++ [x]
       ∧ yields (yield_each ms n) = successes n pre).
Proof.
  induction ms as [| x ms IH].
  - left. split_and!; [constructor | done | done | done].
  - cbn [yield_each]. unfold successes, consulted, yields in *.
    destruct (validate x n) as [[r |] | e] eqn:Hx; cbn [events finish]; csimpl;
      rewrite ?Hx.
    + destruct IH as [(Hall & -> & -> & ->)
                     | (pre & y & post & e & -> & Hpre & Hy & -> & -> & ->)].
      * left. split_and!; [constructor; [by rewrite Hx | done] | done | done | done].
      * right. exists (x :: pre), y, post, e. csimpl. rewrite Hx.
        split_and!; [done | constructor; [by rewrite Hx | done] | done | done | done | done].
    + destruct IH as [(Hall & -> & -> & ->)
                     | (pre & y & post & e & -> & Hpre & Hy & -> & -> & ->)].
      * left. split_and!; [constructor; [by rewrite Hx | done] | done | done | done].
      * right. exists (x :: pre), y, post, e. csimpl. rewrite Hx.
        split_and!; [done | constructor; [by rewrite Hx | done] | done | done | done | done].
    + right. exists [], x, ms, e.
      split_and!; [done | constructor | done | done | done | done].
Qed.

(** C9. A query without an output pathname directive, on a compiled
    manager.  When the queried pathname is not a dynamic route pattern, the
    matchers handed to [validate] are a prefix [cs] of [static] followed by
    a prefix [cd] of [dynamic] (nothing of [dynamic] before [static] is
    exhausted), and the matches yielded are those of [cs] followed by those
    of [cd], in stored order; when the generator returns, both arrays were
    walked entirely.  When the queried pathname is a dynamic route pattern,
    only [dynamic] is walked, and [static] plays no part.  In both cases the
    walk is complete unless [validate] throws: either no candidate makes
    [validate] throw, the generator returns, every candidate was consulted
    and every success was yielded, [static] ones first; or the generator
    stops at the first candidate on which [validate] throws, with that
    error, having yielded every success of the candidates before it. *)
Theorem matchAll_static_then_dynamic m pathname opts :
  lastCompilationID m = compilationID m →
  truthy (matchedOutputPathname (options (normalize pathname opts))) = false →
  let n := normalize pathname opts in
  let g := run_matchAll m pathname opts in
  (isDynamicRoute pathname = false →
     ∃ cs cd,
       consulted g = cs ++ cd
       ∧ cs `prefix_of` static (matchers m)
       ∧ cd `prefix_of` dynamic (matchers m)
       ∧ (cd ≠ [] → cs = static (matchers m))
       ∧ yields g = successes n cs ++ successes n cd
       ∧ (finish g = Returns () →
            cs = static (matchers m) ∧ cd = dynamic (matchers m)))
  ∧ (isDynamicRoute pathname = true →
       consulted g `prefix_of` dynamic (matchers m)
       ∧ yields g = successes n (consulted g)
       ∧ (finish g = Returns () → consulted g = dynamic (matchers m))
       ∧ ∀ s, run_matchAll (set_matchers (set_static s (matchers m)) m)
                pathname opts = g)
  ∧ (let candidates := if isDynamicRoute pathname
                       then dynamic (matchers m)
                       else static (matchers m) ++ dynamic (matchers m) in
     (Forall (λ y, ∀ e, validate y n ≠ Throws e) candidates
      ∧ finish g = Returns ()
      ∧ consulted g = candidates
      ∧ yields g = successes n candidates
      ∧ (isDynamicRoute pathname = false →
           yields g = successes n (static (matchers m))
                      ++ successes n (dynamic (matchers m))))
     ∨ (∃ pre x post e,
          candidates = pre ++ x :: post
          ∧ Forall (λ y, ∀ e', validate y n ≠ Throws e') pre
          ∧ validate x n = Throws e
          ∧ finish g = Throws e
          ∧ consulted g = pre ++ [x]
          ∧ yields g = successes n pre)).
Proof.
  intros Hgood Hfalsy n g. split_and!; [intros Hdyn | intros Hdyn |].
  - assert (Hg : g = and_then (yield_each (static (matchers m)) n)
                              (yield_each (dynamic (matchers m)) n)).
    { subst g n. unfold matchAll. rewrite decide_False by (by intros ?).
      by rewrite Hfalsy, Hdyn. }
    destruct (yield_each_spec (static (matchers m)) n) as (Hs1 & Hs2 & Hs3 & Hs4).
    destruct (yield_each_spec (dynamic (matchers m)) n) as (Hd1 & Hd2 & Hd3 & Hd4).
    destruct (finish (yield_each (static (matchers m)) n)) as [[] | e] eqn:Hfin.
    + rewrite (and_then_returns _ _ Hfin) in Hg.
      exists (consulted (yield_each (static (matchers m)) n)),
             (consulted (yield_each (dynamic (matchers m)) n)).
      rewrite Hg. unfold consulted at 1, yields at 1. cbn [events finish].
      rewrite !omap_app. fold (consulted (yield_each (static (matchers m)) n)).
      fold (consulted (yield_each (dynamic (matchers m)) n)).
      fold (yields (yield_each (static (matchers m)) n)).
      fold (yields (yield_each (dynamic (matchers m)) n)).
      rewrite <- Hs2, <- Hd2. split_and!; try done; auto.
    + rewrite (and_then_throws _ _ _ Hfin) in Hg.
      exists (consulted (yield_each (static (matchers m)) n)), [].
      rewrite Hg, app_nil_r, Hfin. cbn [successes omap list_omap]. rewrite app_nil_r.
      split_and!; try done. apply prefix_nil.
  - assert (Hg : ∀ s, run_matchAll (set_matchers (set_static s (matchers m)) m)
                        pathname opts
                      = yield_each (dynamic (matchers m)) n).
    { intros s. subst n. unfold matchAll, compilationID.
      cbn [lastCompilationID providers set_matchers matchers dynamic set_static].
      fold (compilationID m). rewrite decide_False by (by intros ?).
      rewrite Hfalsy, Hdyn. cbn [negb]. unfold and_then. cbn [finish events app].
      by destruct (yield_each _ _). }
    assert (Hg0 : g = yield_each (dynamic (matchers m)) n).
    { rewrite <- (Hg (static (matchers m))). subst g. by destruct m as [? []]. }
    destruct (yield_each_spec (dynamic (matchers m)) n) as (Hd1 & Hd2 & Hd3 & _).
    rewrite Hg0. split_and!; try done.
  - intros candidates.
    assert (Hg : g = yield_each candidates n).
    { subst g n candidates. unfold matchAll. rewrite decide_False by (by intros ?).
      rewrite Hfalsy. destruct (isDynamicRoute pathname); cbn [negb].
      - unfold and_then. cbn [finish events app]. by destruct (yield_each _ _).
      - apply yield_each_app. }
    rewrite Hg.
    destruct (yield_each_cases candidates n)
      as [(Hall & Hfin & Hcons & Hyields)
         | (pre & x & post & e & Hsplit & Hpre & Hx & Hfin & Hcons & Hyields)].
    + left. split_and!; try done.
      intros Hdyn. rewrite Hyields. subst candidates. rewrite Hdyn.
      apply successes_app.
    + right. by exists pre, x, post, e.
Qed.

End ManagerFacts.

(** *** [validate] *)

(** C7. When the normalized options carry a locale context whose locale was
    inferred from the default, a matcher that is not locale-aware is matched
    against the pathname of the locale context, from which the locale has
    been stripped, and not against the pathname of the request; for a
    [DefaultRouteMatcher] it is that pathname that reaches the pathname
    matcher. *)
Theorem validate_inferred_default matcher n info :
  isLocaleRouteMatcher matcher = false →
  i18n (options n) = Some info →
  inferredFromDefault info = true →
  validate matcher n = Returns (matcher_match matcher (ArgPathname (i18n_pathname info)))
  ∧ ∀ create addr d,
      matcher = DefaultRouteMatcher create addr d →
      validate matcher n =
      Returns (match pathname_match (create (RouteDefinition.pathname d)) (i18n_pathname info) with
               | None => None
               | Some result => Some {| definition := d; params := result |}
               end).
Proof.
  intros Hnaive Hi18n Hinferred.
  assert (Hv : validate matcher n
               = Returns (matcher_match matcher (ArgPathname (i18n_pathname info)))).
  { unfold validate. by rewrite Hnaive, Hi18n, Hinferred. }
  split; [done |]. intros create addr d ->. by rewrite Hv.
Qed.

(** C8. Validating a locale-aware matcher against normalized options
    without locale context throws the invariant error (it is not a [null]
    result); with a locale context, the matcher is matched against that
    context. *)
Theorem validate_locale_matcher matcher n :
  isLocaleRouteMatcher matcher = true →
  (i18n (options n) = None →
     validate matcher n = Throws invariant_locale
     ∧ validate matcher n ≠ Returns None)
  ∧ (∀ info, i18n (options n) = Some info →
       validate matcher n = Returns (matcher_match matcher (ArgI18n info))).
Proof.
  intros Hlocale. unfold validate. rewrite Hlocale. split.
  - by intros ->.
  - by intros info ->.
Qed.

(** ** The properties on concrete runs *)

Lemma forceReload_failure_snapshot_witness :
  Demo.reload_promise Demo.answers_failing [] Demo.one_provider
    = Some (RejectedWith (Error "boom"))
  ∧ ((promise_all (Demo.answers_failing <$> providers Demo.one_provider)
        = Rejected (Error "boom")
      ∧ matchers (Demo.forceReload Demo.answers_failing [] Demo.one_provider).1
        = matchers Demo.one_provider)
     ∨ (∃ fetched,
          promise_all (Demo.answers_failing <$> providers Demo.one_provider)
            = Fulfilled fetched
          ∧ ([] : list RouteMatcherProvider) ≠ []
          ∧ Error "boom" = invariant_new_matchers
          ∧ matchers (Demo.forceReload Demo.answers_failing [] Demo.one_provider).1
            = compiled Demo.groupMatcherResults Demo.sortDynamicMatchers (concat fetched))).
Proof.
  split; [reflexivity |].
  apply (forceReload_failure_snapshot Demo.groupMatcherResults Demo.sortDynamicMatchers
           Demo.answers_failing [] Demo.one_provider (Error "boom")).
  reflexivity.
Defined.

(** A provider is registered while a reload awaits its providers: the reload
    fails with the invariant error, and yet [static] (and with it the
    snapshot) is no longer what it was before the call. *)
Lemma forceReload_failure_snapshot_counterexample :
  Demo.reload_promise Demo.answers_about [Provider 1] Demo.one_provider
    = Some (RejectedWith invariant_new_matchers)
  ∧ static (matchers Demo.one_provider) = []
  ∧ static (matchers (Demo.forceReload Demo.answers_about [Provider 1] Demo.one_provider).1)
    = [Demo.about]
  ∧ matchers (Demo.forceReload Demo.answers_about [Provider 1] Demo.one_provider).1
    ≠ matchers Demo.one_provider.
Proof.
  split_and!; try reflexivity.
  intros Heq. apply (f_equal static) in Heq. vm_compute in Heq. discriminate Heq.
Qed.

(** C3. One provider is registered and nothing is compiled yet (last version
    0, counter 1); a reload starts and a second provider is registered while
    it awaits.  The invariant error only rejects the promise kept for
    [waitTillReady]: the call to [forceReload] itself completes, and the
    version recorded as last compiled has moved from 0 to 1, the version of
    the run that failed. *)
Theorem forceReload_stale_run_recorded :
  lastCompilationID Demo.one_provider = 0
  ∧ compilationID Demo.one_provider = 1
  ∧ compilationID (Demo.forceReload Demo.answers_about [Provider 1] Demo.one_provider).1 = 2
  ∧ Demo.reload_promise Demo.answers_about [Provider 1] Demo.one_provider
    = Some (RejectedWith invariant_new_matchers)
  ∧ (Demo.forceReload Demo.answers_about [Provider 1] Demo.one_provider).2 = Fulfilled ()
  ∧ lastCompilationID (Demo.forceReload Demo.answers_about [Provider 1] Demo.one_provider).1 = 1
  ∧ waitTillReady (Demo.forceReload Demo.answers_about [Provider 1] Demo.one_provider).1
    = Some ((Demo.forceReload Demo.answers_about [Provider 1] Demo.one_provider).1,
            Rejected invariant_new_matchers).
Proof. split_and!; reflexivity. Qed.

Lemma matchAll_stale_witness :
  lastCompilationID (push [Provider 1] Demo.loaded)
    ≠ compilationID (push [Provider 1] Demo.loaded)
  ∧ Demo.matchAll (push [Provider 1] Demo.loaded) "/about" Demo.plain
    = {| events := []; finish := Throws invariant_not_loaded |}.
Proof.
  assert (H : lastCompilationID (push [Provider 1] Demo.loaded)
              ≠ compilationID (push [Provider 1] Demo.loaded))
    by (vm_compute; lia).
  split; [exact H |].
  exact (proj1 (matchAll_stale Demo.MatchOptions Demo.normalize Demo.isDynamicRoute
                  _ "/about" Demo.plain H)).
Defined.

(** Two reloads race: the first starts with one provider, a second provider
    is registered and a second reload starts and completes (version 2), then
    the first resumes, fails, and sets the recorded version back to 1. *)
Example forceReload_race_regresses_version :
  let '(m1, first) := forceReload_begin Demo.one_provider in
  let m2 := push [Provider 1] m1 in
  let '(m3, second) := forceReload_begin m2 in
  let m4 := (forceReload_resume Demo.groupMatcherResults Demo.sortDynamicMatchers
               Demo.answers_about second m3).1 in
  let m5 := (forceReload_resume Demo.groupMatcherResults Demo.sortDynamicMatchers
               Demo.answers_about_slug first m4).1 in
  lastCompilationID m4 = 2 ∧ compilationID m4 = 2
  ∧ lastCompilationID m5 = 1 ∧ compilationID m5 = 2
  ∧ promises m5 = [RejectedWith invariant_new_matchers; Resolved].
Proof. vm_compute. done. Qed.

Lemma matchAll_exact_output_witness :
  lastCompilationID Demo.loaded = compilationID Demo.loaded
  ∧ matchedOutputPathname (options (Demo.normalize "/about" Demo.exact_about))
    = Some "/about"
  ∧ "/about" ≠ ""
  ∧ length (yields (Demo.matchAll Demo.loaded "/about" Demo.exact_about)) ≤ 1
  ∧ ∀ s d,
      Demo.matchAll
        (set_matchers (set_static s (set_dynamic d (matchers Demo.loaded))) Demo.loaded)
        "/about" Demo.exact_about
      = Demo.matchAll Demo.loaded "/about" Demo.exact_about.
Proof.
  assert (H1 : lastCompilationID Demo.loaded = compilationID Demo.loaded)
    by reflexivity.
  assert (H2 : matchedOutputPathname (options (Demo.normalize "/about" Demo.exact_about))
               = Some "/about") by reflexivity.
  assert (H3 : "/about" ≠ "") by (intros H; discriminate H).
  split_and!; [exact H1 | exact H2 | exact H3 | |].
  - exact (proj1 (proj2 (matchAll_exact_output Demo.MatchOptions Demo.normalize
                           Demo.isDynamicRoute Demo.loaded "/about" Demo.exact_about
                           "/about" H1 H2 H3))).
  - exact (proj2 (proj2 (matchAll_exact_output Demo.MatchOptions Demo.normalize
                           Demo.isDynamicRoute Demo.loaded "/about" Demo.exact_about
                           "/about" H1 H2 H3))).
Defined.

(** The query that names [/about] as its output consults the entry of
    [/about] only; the dynamic matcher, which matches every pathname, is not
    consulted. *)
Example matchAll_exact_output_run :
  Demo.matchAll Demo.loaded "/about" Demo.exact_about
  = {| events := [Validated Demo.about;
                  Yielded {| definition := Demo.definition_for "/about"; params := [] |}];
       finish := Returns () |}.
Proof. vm_compute. reflexivity. Qed.

Lemma forceReload_identical_list_witness :
  promise_all (Demo.answers_about_slug <$> providers Demo.one_provider)
    = Fulfilled [[Demo.slug; Demo.about]]
  ∧ promise_all (Demo.answers_about_slug <$> providers Demo.loaded)
    = Fulfilled [[Demo.slug; Demo.about]]
  ∧ Forall2 (λ a b, address a = address b)
      (concat [[Demo.slug; Demo.about]]) (concat [[Demo.slug; Demo.about]])
  ∧ static (matchers (Demo.forceReload Demo.answers_about_slug [] Demo.loaded).1)
    = static (matchers Demo.loaded)
  ∧ dynamic (matchers (Demo.forceReload Demo.answers_about_slug [] Demo.loaded).1)
    = dynamic (matchers Demo.loaded).
Proof.
  assert (H1 : promise_all (Demo.answers_about_slug <$> providers Demo.one_provider)
               = Fulfilled [[Demo.slug; Demo.about]]) by reflexivity.
  assert (H2 : promise_all (Demo.answers_about_slug <$> providers Demo.loaded)
               = Fulfilled [[Demo.slug; Demo.about]]) by reflexivity.
  assert (H3 : Forall2 (λ a b, address a = address b)
                 (concat [[Demo.slug; Demo.about]]) (concat [[Demo.slug; Demo.about]]))
    by (simpl; repeat constructor).
  pose proof (forceReload_identical_list Demo.groupMatcherResults Demo.sortDynamicMatchers
                Demo.answers_about_slug [] Demo.answers_about_slug []
                Demo.one_provider _ _ H1 H2 H3) as (Hs & Hd & _).
  split_and!; [exact H1 | exact H2 | exact H3 | exact Hs | exact Hd].
Defined.

Lemma validate_inferred_default_witness :
  isLocaleRouteMatcher Demo.about = false
  ∧ i18n (options (Demo.normalize "/en/about" Demo.inferred_en))
    = Some (mkLocaleInfo (Some "en") true "/about")
  ∧ inferredFromDefault (mkLocaleInfo (Some "en") true "/about") = true
  ∧ validate Demo.about (Demo.normalize "/en/about" Demo.inferred_en)
    = Returns (matcher_match Demo.about (ArgPathname "/about")).
Proof.
  split_and!; [reflexivity | reflexivity | reflexivity |].
  exact (proj1 (validate_inferred_default Demo.about
                  (Demo.normalize "/en/about" Demo.inferred_en)
                  (mkLocaleInfo (Some "en") true "/about")
                  eq_refl eq_refl eq_refl)).
Defined.

(** [/en/about] with the locale [en] inferred from the default matches the
    locale-naive matcher for [/about]; the request pathname itself does not. *)
Example validate_inferred_default_run :
  validate Demo.about (Demo.normalize "/en/about" Demo.inferred_en)
    = Returns (Some {| definition := Demo.definition_for "/about"; params := [] |})
  ∧ matcher_match Demo.about (ArgNormalized (Demo.normalize "/en/about" Demo.inferred_en))
    = None.
Proof. split; reflexivity. Qed.

Lemma validate_locale_matcher_witness :
  isLocaleRouteMatcher Demo.locale_about = true
  ∧ i18n (options (Demo.normalize "/about" Demo.plain)) = None
  ∧ validate Demo.locale_about (Demo.normalize "/about" Demo.plain)
    = Throws invariant_locale.
Proof.
  split_and!; [reflexivity | reflexivity |].
  exact (proj1 (proj1 (validate_locale_matcher Demo.locale_about
                         (Demo.normalize "/about" Demo.plain) eq_refl) eq_refl)).
Defined.

Lemma matchAll_static_then_dynamic_witness :
  lastCompilationID Demo.loaded = compilationID Demo.loaded
  ∧ truthy (matchedOutputPathname (options (Demo.normalize "/about" Demo.plain))) = false
  ∧ ∃ cs cd,
      consulted (Demo.matchAll Demo.loaded "/about" Demo.plain) = cs ++ cd
      ∧ cs `prefix_of` static (matchers Demo.loaded)
      ∧ cd `prefix_of` dynamic (matchers Demo.loaded)
      ∧ yields (Demo.matchAll Demo.loaded "/about" Demo.plain)
        = successes (Demo.normalize "/about" Demo.plain) cs
          ++ successes (Demo.normalize "/about" Demo.plain) cd.
Proof.
  assert (H1 : lastCompilationID Demo.loaded = compilationID Demo.loaded)
    by reflexivity.
  assert (H2 : truthy (matchedOutputPathname
                         (options (Demo.normalize "/about" Demo.plain))) = false)
    by reflexivity.
  split_and!; [exact H1 | exact H2 |].
  destruct (proj1 (matchAll_static_then_dynamic Demo.MatchOptions Demo.normalize
                     Demo.isDynamicRoute Demo.loaded "/about" Demo.plain H1 H2) eq_refl)
    as (cs & cd & Hc & Hs & Hd & _ & Hy & _).
  exists cs, cd. split_and!; [exact Hc | exact Hs | exact Hd | exact Hy].
Defined.

(** A plain query for [/about]: the static matcher is consulted and yields
    before the dynamic one; a query for the pattern [/[slug]] itself skips
    the static matchers. *)
Example matchAll_static_then_dynamic_run :
  Demo.matchAll Demo.loaded "/about" Demo.plain
  = {| events :=
         [Validated Demo.about;
          Yielded {| definition := Demo.definition_for "/about"; params := [] |};
          Validated Demo.slug;
          Yielded {| definition := Demo.definition_for "/[slug]";
                     params := [("slug", ParamString "/about")] |}];
       finish := Returns () |}
  ∧ consulted (Demo.matchAll Demo.loaded "/[slug]" Demo.plain) = [Demo.slug].
Proof. split; vm_compute; reflexivity. Qed.

(** * Further properties *)

(** ** The collector *)

Lemma pages_of_app k ps qs : pages_of k (ps ++ qs) = pages_of k ps ++ pages_of k qs.
Proof. unfold pages_of. by rewrite filter_app, fmap_app. Qed.

Lemma entry_after_push k k0 p0 (c : AppPathsCollector.t) :
  default [] (map_get k (AppPathsCollector.push k0 p0 c).1)
  = default [] (map_get k c) ++ pages_of k [(k0, p0)].
Proof.
  rewrite push_unfold. cbn [fst].
  destruct (decide (k0 = k)) as [-> | Hne].
  - by rewrite map_get_set_eq, pages_of_cons_eq.
  - rewrite map_get_set_ne, pages_of_cons_ne by done. by rewrite app_nil_r.
Qed.

Lemma push_all_count_from ps (c : AppPathsCollector.t) i k p :
  ps !! i = Some (k, p) →
  (AppPathsCollector.push_all ps c).2 !! i
  = Some (S (length (default [] (map_get k c) ++ pages_of k (take i ps)))).
Proof.
  revert c i. induction ps as [| [k0 p0] ps IH]; intros c i Hi; [done |].
  rewrite push_all_cons. cbv zeta. cbn [snd].
  destruct i as [| i]; simpl in Hi.
  - simplify_eq. rewrite push_unfold. cbn [snd lookup list_lookup take].
    by rewrite app_nil_r.
  - cbn [lookup list_lookup]. rewrite (IH _ i Hi), entry_after_push.
    cbn [take]. change ((k0, p0) :: take i ps) with ([(k0, p0)] ++ take i ps).
    by rewrite pages_of_app, app_assoc.
Qed.

(** X1. In a run of [push] calls on a fresh collector, each call returns the
    number of pages pushed so far for its pathname, its own included; it
    returns 1 exactly when the pathname had not been pushed before. *)
Theorem push_all_counts (ps : list (string * string)) i k p :
  ps !! i = Some (k, p) →
  (AppPathsCollector.push_all ps AppPathsCollector.empty).2 !! i
    = Some (S (length (pages_of k (take i ps))))
  ∧ ((AppPathsCollector.push_all ps AppPathsCollector.empty).2 !! i = Some 1
     ↔ k ∉ (take i ps).*1).
Proof.
  intros Hi. pose proof (push_all_count_from ps AppPathsCollector.empty i k p Hi) as Hc.
  cbn [map_get AppPathsCollector.empty default app] in Hc. rewrite Hc.
  split; [done |]. rewrite <- pages_of_nil_iff. split.
  - intros [= Hlen]. by apply nil_length_inv.
  - by intros ->.
Qed.

Lemma push_all_counts_witness :
  [("/p", "b"); ("/q", "c"); ("/p", "a")] !! 2 = Some ("/p", "a")
  ∧ (AppPathsCollector.push_all [("/p", "b"); ("/q", "c"); ("/p", "a")]
       AppPathsCollector.empty).2 !! 2 = Some 2.
Proof.
  split; [reflexivity |].
  exact (proj1 (push_all_counts [("/p", "b"); ("/q", "c"); ("/p", "a")] 2 "/p" "a"
                  eq_refl)).
Defined.

(** X2. After any run of pushes on a fresh collector, [get] returns [null]
    for exactly the pathnames that were never pushed. *)
Theorem get_null_iff_never_pushed (ps : list (string * string)) (k : string) :
  AppPathsCollector.get k (AppPathsCollector.push_all ps AppPathsCollector.empty).1 = None
  ↔ k ∉ ps.*1.
Proof.
  rewrite get_after_pushes, <- pages_of_nil_iff. unfold aggregate.
  by destruct (pages_of k ps).
Qed.

(** X3. Right after [push(pathname, page)], [get(pathname)] returns the
    aggregate whose [appPaths] is the sorted array of what was stored for the
    pathname with [page] added: [page] is in it, and the array is one longer
    than before. *)
Theorem get_after_push (c : AppPathsCollector.t) (k p : string) :
  let stored := default [] (map_get k c) in
  AppPathsCollector.get k (AppPathsCollector.push k p c).1
    = Some (mkAppPaths (last (js_sort (stored ++ [p]))) k (js_sort (stored ++ [p])))
  ∧ p ∈ js_sort (stored ++ [p])
  ∧ length (js_sort (stored ++ [p])) = S (length stored)
  ∧ (AppPathsCollector.push k p c).2 = S (length stored).
Proof.
  intros stored. rewrite push_unfold. cbn [fst snd].
  unfold AppPathsCollector.get. rewrite map_get_set_eq. fold stored.
  rewrite last_index. split_and!; [done | | | done].
  - rewrite js_sort_elem_of. set_solver.
  - rewrite js_sort_length, length_app. simpl. lia.
Qed.

(** X4. A [push] for one pathname changes nothing for the other pathnames:
    [get] returns for them what it returned before. *)
Theorem get_other_after_push (c : AppPathsCollector.t) (k p k' : string) :
  k' ≠ k →
  AppPathsCollector.get k' (AppPathsCollector.push k p c).1 = AppPathsCollector.get k' c.
Proof.
  intros Hne. rewrite push_unfold. cbn [fst]. unfold AppPathsCollector.get.
  by rewrite map_get_set_ne.
Qed.

Lemma get_other_after_push_witness :
  "/q" ≠ "/p"
  ∧ AppPathsCollector.get "/q"
      (AppPathsCollector.push "/p" "a" [("/q", ["c"])]).1
    = AppPathsCollector.get "/q" [("/q", ["c"])].
Proof.
  assert (H : "/q" ≠ "/p") by (intros H; discriminate H).
  split; [exact H |].
  exact (get_other_after_push [("/q", ["c"])] "/p" "a" "/q" H).
Defined.

Lemma get_appPaths (c : AppPathsCollector.t) k :
  appPaths <$> AppPathsCollector.get k c = js_sort <$> map_get k c.
Proof. unfold AppPathsCollector.get. by destruct (map_get k c). Qed.

Lemma toObject_fold_own (c : AppPathsCollector.t) (l : list string) (obj : JsObject) k :
  k ≠ "__proto__" →
  own (foldl (λ obj pathname,
                match map_get pathname c with
                | None => obj
                | Some stored => assign pathname (js_sort stored) obj
                end) obj l) !! k
  = match (if decide (k ∈ l) then js_sort <$> map_get k c else None) with
    | Some v => Some v
    | None => own obj !! k
    end.
Proof.
  intros Hk. revert obj. induction l as [| x l IH]; intros obj.
  - cbn [foldl]. rewrite decide_False by apply not_elem_of_nil. done.
  - cbn [foldl]. rewrite IH.
    destruct (decide (k ∈ l)) as [Hin | Hnotin].
    + rewrite (decide_True (P := k ∈ x :: l)) by (by right).
      destruct (map_get k c) as [stored |] eqn:Hget; cbn [fmap option_fmap option_map];
        [done |].
      destruct (map_get x c) as [stored' |] eqn:Hx; [| done].
      unfold assign. destruct (decide (x = "__proto__")); [done |].
      cbn [own]. rewrite lookup_insert_ne by congruence. done.
    + destruct (decide (x = k)) as [-> | Hne].
      * rewrite (decide_True (P := k ∈ k :: l)) by (by left).
        destruct (map_get k c) as [stored |] eqn:Hget; cbn [fmap option_fmap option_map];
          [| done].
        unfold assign. rewrite decide_False by done. cbn [own].
        by rewrite lookup_insert_eq.
      * rewrite (decide_False (P := k ∈ x :: l))
          by (rewrite elem_of_cons; intros [? | ?]; congruence).
        destruct (map_get x c) as [stored' |]; [| done].
        unfold assign. destruct (decide (x = "__proto__")); [done |].
        cbn [own]. by rewrite lookup_insert_ne.
Qed.

Lemma toObject_fold_own_proto (c : AppPathsCollector.t) (l : list string) (obj : JsObject) :
  own (foldl (λ obj pathname,
                match map_get pathname c with
                | None => obj
                | Some stored => assign pathname (js_sort stored) obj
                end) obj l) !! "__proto__"
  = own obj !! "__proto__".
Proof.
  revert obj. induction l as [| x l IH]; intros obj; [done |].
  cbn [foldl]. rewrite IH. destruct (map_get x c) as [stored |]; [| done].
  unfold assign. destruct (decide (x = "__proto__")); [done |].
  cbn [own]. by rewrite lookup_insert_ne.
Qed.

Lemma toObject_fold_prototype (c : AppPathsCollector.t) (l : list string) (obj : JsObject) :
  prototype (foldl (λ obj pathname,
                      match map_get pathname c with
                      | None => obj
                      | Some stored => assign pathname (js_sort stored) obj
                      end) obj l)
  = match (if decide ("__proto__" ∈ l) then js_sort <$> map_get "__proto__" c else None) with
    | Some v => Some v
    | None => prototype obj
    end.
Proof.
  revert obj. induction l as [| x l IH]; intros obj.
  - cbn [foldl]. rewrite decide_False by apply not_elem_of_nil. done.
  - cbn [foldl]. rewrite IH.
    destruct (decide ("__proto__" ∈ l)) as [Hin | Hnotin].
    + rewrite (decide_True (P := "__proto__" ∈ x :: l)) by (by right).
      destruct (map_get "__proto__" c) as [stored |] eqn:Hget;
        cbn [fmap option_fmap option_map]; [done |].
      destruct (map_get x c) as [stored' |] eqn:Hx; [| done].
      unfold assign. destruct (decide (x = "__proto__")) as [-> | ?]; [congruence | done].
    + destruct (decide (x = "__proto__")) as [-> | Hne].
      * rewrite (decide_True (P := "__proto__" ∈ "__proto__" :: l)) by (by left).
        destruct (map_get "__proto__" c) as [stored |] eqn:Hget;
          cbn [fmap option_fmap option_map]; [| done].
        unfold assign. by rewrite decide_True.
      * rewrite (decide_False (P := "__proto__" ∈ x :: l))
          by (rewrite elem_of_cons; intros [? | ?]; congruence).
        destruct (map_get x c) as [stored' |]; [| done].
        unfold assign. by rewrite decide_False.
Qed.

(** X5. The object returned by [toObject] has, for every pathname other
    than [__proto__], an own property exactly when [get] is not [null], and
    its value is the sorted [appPaths] that [get] returns.  The pathname
    [__proto__] never becomes an own property: its sorted [appPaths] become
    the prototype of the object instead. *)
Theorem toObject_own_properties (c : AppPathsCollector.t) (k : string) :
  own (AppPathsCollector.toObject c) !! k
    = (if decide (k = "__proto__") then None
       else appPaths <$> AppPathsCollector.get k c)
  ∧ prototype (AppPathsCollector.toObject c)
    = appPaths <$> AppPathsCollector.get "__proto__" c.
Proof.
  assert (Hkeys : ∀ k', k' ∉ AppPathsCollector.pathnames c → map_get k' c = None).
  { intros k' Hk'. apply map_get_None. intros Hin. apply Hk'.
    unfold AppPathsCollector.pathnames. by rewrite js_sort_elem_of. }
  rewrite !get_appPaths. unfold AppPathsCollector.toObject. split.
  - destruct (decide (k = "__proto__")) as [-> | Hk].
    + by rewrite toObject_fold_own_proto.
    + rewrite toObject_fold_own by done. cbn [own].
      destruct (decide (k ∈ AppPathsCollector.pathnames c)) as [Hin | Hnotin].
      * by destruct (map_get k c).
      * by rewrite (Hkeys k Hnotin).
  - rewrite toObject_fold_prototype. cbn [prototype].
    destruct (decide ("__proto__" ∈ AppPathsCollector.pathnames c)) as [Hin | Hnotin].
    + by destruct (map_get "__proto__" c).
    + by rewrite (Hkeys _ Hnotin).
Qed.

(** A pathname that looks like an array index and the pathname [__proto__]:
    the first is an own property like any other, the second is not. *)
Example toObject_run :
  own (AppPathsCollector.toObject
         (AppPathsCollector.push_all [("10", "b"); ("__proto__", "p"); ("10", "a")]
            AppPathsCollector.empty).1) !! "10" = Some ["a"; "b"]
  ∧ own (AppPathsCollector.toObject
           (AppPathsCollector.push_all [("10", "b"); ("__proto__", "p"); ("10", "a")]
              AppPathsCollector.empty).1) !! "__proto__" = None
  ∧ prototype (AppPathsCollector.toObject
                 (AppPathsCollector.push_all [("10", "b"); ("__proto__", "p"); ("10", "a")]
                    AppPathsCollector.empty).1) = Some ["p"].
Proof. split_and!; vm_compute; reflexivity. Qed.

(** ** [AppPathsRoutes] *)

Lemma routes_get_after_adds k ps :
  AppPathsRoutes.get k (AppPathsRoutes.add_all ps AppPathsRoutes.empty).1
  = aggregate k (pages_of k ps).
Proof.
  destruct (add_all_push_all ps AppPathsCollector.empty AppPathsRoutes.empty)
    as [Hsim _]; [done |].
  rewrite (get_sorted_image _ _ _ Hsim). apply get_after_pushes.
Qed.

(** X6. After any run of [add] calls on fresh routes, what [get] returns
    for a pathname holds the pages added for it, sorted, with [page] the
    last and greatest of them: the array kept in the map is sorted at all
    times, although [get] itself never sorts. *)
Theorem routes_get_sorted (ps : list (string * string)) (k : string) (a : AppPaths) :
  AppPathsRoutes.get k (AppPathsRoutes.add_all ps AppPathsRoutes.empty).1 = Some a →
  pathname a = k
  ∧ Sorted String.le (appPaths a)
  ∧ appPaths a ≡ₚ pages_of k ps
  ∧ ∃ g, page a = Some g ∧ last (appPaths a) = Some g
         ∧ ∀ x, x ∈ appPaths a → String.le x g.
Proof.
  rewrite routes_get_after_adds. intros Hagg.
  assert (Hk : k ∈ ps.*1).
  { destruct (decide (k ∈ ps.*1)) as [? | Hn]; [done |].
    apply pages_of_nil_iff in Hn. by rewrite Hn in Hagg. }
  rewrite aggregate_pushed in Hagg by done. injection Hagg as <-.
  cbn [pathname appPaths page].
  split_and!; [done | apply js_sort_Sorted | apply js_sort_Permutation |].
  destruct (last (js_sort (pages_of k ps))) as [g |] eqn:Hlast.
  - exists g. split_and!; [done | done |]. intros x Hx.
    eapply sorted_last_greatest; eauto using js_sort_Sorted.
  - apply last_None, (f_equal length) in Hlast.
    rewrite js_sort_length in Hlast. apply nil_length_inv in Hlast.
    by apply pages_of_nil_iff in Hlast.
Qed.

Lemma routes_get_sorted_witness :
  AppPathsRoutes.get "/p"
    (AppPathsRoutes.add_all [("/p", "b"); ("/p", "a")] AppPathsRoutes.empty).1
    = Some (mkAppPaths (Some "b") "/p" ["a"; "b"])
  ∧ Sorted String.le ["a"; "b"].
Proof.
  assert (H : AppPathsRoutes.get "/p"
                (AppPathsRoutes.add_all [("/p", "b"); ("/p", "a")] AppPathsRoutes.empty).1
              = Some (mkAppPaths (Some "b") "/p" ["a"; "b"])) by reflexivity.
  split; [exact H |].
  exact (proj1 (proj2 (routes_get_sorted _ _ _ H))).
Defined.

(** X7. [AppPathsRoutes.toSortedArray] does not depend on the order of the
    [add] calls either: two runs that add the same pairs return the same
    array. *)
Theorem routes_toSortedArray_add_order (ps1 ps2 : list (string * string)) :
  ps1 ≡ₚ ps2 →
  AppPathsRoutes.toSortedArray (AppPathsRoutes.add_all ps1 AppPathsRoutes.empty).1
  = AppPathsRoutes.toSortedArray (AppPathsRoutes.add_all ps2 AppPathsRoutes.empty).1.
Proof.
  intros Hperm.
  destruct (add_all_push_all ps1 AppPathsCollector.empty AppPathsRoutes.empty)
    as [Hsim1 _]; [done |].
  destruct (add_all_push_all ps2 AppPathsCollector.empty AppPathsRoutes.empty)
    as [Hsim2 _]; [done |].
  unfold AppPathsRoutes.toSortedArray.
  rewrite (pathnames_sorted_image _ _ Hsim1), (pathnames_sorted_image _ _ Hsim2).
  rewrite (pathnames_after_pushes_perm _ _ Hperm).
  apply list_fmap_ext. intros _ k _. rewrite !routes_get_after_adds.
  by apply aggregate_perm, pages_of_perm.
Qed.

Lemma routes_toSortedArray_add_order_witness :
  [("/p", "b"); ("/p", "a")] ≡ₚ [("/p", "a"); ("/p", "b")]
  ∧ AppPathsRoutes.toSortedArray
      (AppPathsRoutes.add_all [("/p", "b"); ("/p", "a")] AppPathsRoutes.empty).1
    = AppPathsRoutes.toSortedArray
        (AppPathsRoutes.add_all [("/p", "a"); ("/p", "b")] AppPathsRoutes.empty).1.
Proof.
  assert (H : [("/p", "b"); ("/p", "a")] ≡ₚ [("/p", "a"); ("/p", "b")])
    by apply perm_swap.
  split; [exact H |].
  exact (routes_toSortedArray_add_order _ _ H).
Defined.

(** ** The manager: reloads followed by queries *)

(** X8. [validate] throws in one case only: a locale-aware matcher and
    normalized options without locale context; the error is then the locale
    invariant.  In particular a query that carries locale context never makes
    [validate] throw. *)
Theorem validate_throws_iff matcher n e :
  validate matcher n = Throws e
  ↔ isLocaleRouteMatcher matcher = true
    ∧ i18n (options n) = None
    ∧ e = invariant_locale.
Proof.
  unfold validate.
  destruct (isLocaleRouteMatcher matcher), (i18n (options n)) as [info |];
    try destruct (inferredFromDefault info); split;
    first [by intros [= <-] | by intros (? & ? & ->) | done].
Qed.

Lemma validate_throws matcher n e :
  validate matcher n = Throws e →
  isLocaleRouteMatcher matcher = true ∧ i18n (options n) = None ∧ e = invariant_locale.
Proof.
  unfold validate.
  destruct (isLocaleRouteMatcher matcher), (i18n (options n)) as [info |];
    try destruct (inferredFromDefault info); try done.
  by intros [= <-].
Qed.

Lemma yield_each_throws ms n e :
  finish (yield_each ms n) = Throws e →
  e = invariant_locale ∧ ∃ x, x ∈ ms ∧ validate x n = Throws e.
Proof.
  induction ms as [| x ms IH]; [done |]. cbn [yield_each].
  destruct (validate x n) as [[r |] | e'] eqn:Hx; cbn [finish].
  - intros He. destruct (IH He) as (-> & y & Hy & Hthrow).
    split; [done |]. exists y. split; [by right | done].
  - intros He. destruct (IH He) as (-> & y & Hy & Hthrow).
    split; [done |]. exists y. split; [by right | done].
  - intros [= ->]. destruct (validate_throws _ _ _ Hx) as (_ & _ & ->).
    split; [done |]. exists x. split; [by left | done].
Qed.

Lemma yield_first_throws ms n e :
  finish (yield_first ms n) = Throws e →
  e = invariant_locale ∧ ∃ x, x ∈ ms ∧ validate x n = Throws e.
Proof.
  induction ms as [| x ms IH]; [done |]. cbn [yield_first].
  destruct (validate x n) as [[r |] | e'] eqn:Hx; cbn [finish]; [done | |].
  - intros He. destruct (IH He) as (-> & y & Hy & Hthrow).
    split; [done |]. exists y. split; [by right | done].
  - intros [= ->]. destruct (validate_throws _ _ _ Hx) as (_ & _ & ->).
    split; [done |]. exists x. split; [by left | done].
Qed.

Lemma yield_each_returns ms n :
  (∀ x, x ∈ ms → ∀ e, validate x n ≠ Throws e) →
  finish (yield_each ms n) = Returns ().
Proof.
  intros Hok. destruct (finish (yield_each ms n)) as [[] | e] eqn:Hfin; [done |].
  destruct (yield_each_throws _ _ _ Hfin) as (_ & x & Hx & Hthrow).
  by destruct (Hok x Hx e).
Qed.

Section ManagerMore.
Variable MatchOptions : Type.
Variable normalize : string → MatchOptions → NormalizedMatchOptions.
Variable isDynamicRoute : string → bool.
Variable groupMatcherResults :
  list RouteMatcher →
  gmap string (list RouteMatcher) * gmap string (list RouteMatcher).
Variable sortDynamicMatchers : list RouteMatcher → list RouteMatcher.

Local Abbreviation run_reload := (forceReload groupMatcherResults sortDynamicMatchers).
Local Abbreviation run_resume := (forceReload_resume groupMatcherResults sortDynamicMatchers).
Local Abbreviation run_body := (forceReload_body groupMatcherResults sortDynamicMatchers).
Local Abbreviation run_promise := (reload_promise groupMatcherResults sortDynamicMatchers).
Local Abbreviation run_load := (load groupMatcherResults sortDynamicMatchers).
Local Abbreviation run_matchAll := (matchAll MatchOptions normalize isDynamicRoute).
Local Abbreviation run_match := (match_ MatchOptions normalize isDynamicRoute).
Local Abbreviation snapshot_of := (compiled groupMatcherResults sortDynamicMatchers).
Local Abbreviation run_case := (reload_case groupMatcherResults sortDynamicMatchers).

(** The only two errors that end a [matchAll] generator. *)
Lemma matchAll_throws m pathname opts e :
  finish (run_matchAll m pathname opts) = Throws e →
  (lastCompilationID m ≠ compilationID m ∧ e = invariant_not_loaded)
  ∨ e = invariant_locale.
Proof.
  unfold matchAll. destruct (decide (lastCompilationID m ≠ compilationID m)) as [Hs | _].
  - intros [= <-]. by left.
  - intros Hfin. right. destruct (truthy _).
    + destruct (all (matchers m) !! _) as [ms |]; [| done].
      by destruct (yield_first_throws _ _ _ Hfin).
    + unfold and_then in Hfin.
      destruct (finish (if negb (isDynamicRoute pathname) then _ else _))
        as [[] | e1] eqn:Hfin1.
      * cbn [finish] in Hfin. by destruct (yield_each_throws _ _ _ Hfin).
      * rewrite Hfin1 in Hfin. injection Hfin as ->.
        destruct (negb (isDynamicRoute pathname)); [| done].
        by destruct (yield_each_throws _ _ _ Hfin1).
Qed.

(** X9. After a reload during which no provider was registered, the guard
    of [matchAll] passes, whether the reload succeeded or a provider failed:
    a query never ends with the not-loaded invariant error. *)
Theorem forceReload_then_matchAll answers m pathname opts :
  lastCompilationID (run_reload answers [] m).1 = compilationID (run_reload answers [] m).1
  ∧ finish (run_matchAll (run_reload answers [] m).1 pathname opts)
    ≠ Throws invariant_not_loaded.
Proof.
  destruct (forceReload_summary groupMatcherResults sortDynamicMatchers answers [] m)
    as (m1 & c & _ & _ & _ & _ & Hprov & Hlast & _).
  assert (Hgood : lastCompilationID (run_reload answers [] m).1
                  = compilationID (run_reload answers [] m).1).
  { unfold compilationID. by rewrite Hlast, Hprov, app_nil_r. }
  split; [done |]. intros Hfin.
  by destruct (matchAll_throws _ _ _ _ Hfin) as [[Hstale _] | [=]].
Qed.

(** X10. After a reload during which a provider was registered, the manager
    is stale whatever the outcome of the reload: every [matchAll] throws the
    not-loaded invariant error before consulting a matcher, and so does
    [match], until another reload runs. *)
Theorem forceReload_with_push_then_matchAll answers during m pathname opts :
  during ≠ [] →
  run_matchAll (run_reload answers during m).1 pathname opts
    = {| events := []; finish := Throws invariant_not_loaded |}
  ∧ run_match (run_reload answers during m).1 pathname opts
    = Throws invariant_not_loaded.
Proof.
  intros Hdur.
  destruct (forceReload_summary groupMatcherResults sortDynamicMatchers answers during m)
    as (m1 & c & _ & _ & _ & _ & Hprov & Hlast & _).
  assert (Hstale : lastCompilationID (run_reload answers during m).1
                   ≠ compilationID (run_reload answers during m).1).
  { unfold compilationID in *. rewrite Hlast, Hprov, length_app.
    destruct during; [done | simpl; lia]. }
  unfold match_. rewrite (matchAll_stale_eq _ _ _ _ _ _ Hstale). done.
Qed.

(** X11. When the fetched list holds the same objects as the previous one,
    the reload returns before the check of the version counter: the promise
    kept for [waitTillReady] is resolved even if a provider was registered
    while the reload was waiting. *)
Theorem forceReload_identical_resolves answers during m fetched :
  promise_all (answers <$> providers m) = Fulfilled fetched →
  Forall2 (λ a b, address a = address b) (previousMatchers m) (concat fetched) →
  run_promise answers during m = Some Resolved.
Proof.
  intros Hall Hsame.
  destruct (forceReload_summary groupMatcherResults sortDynamicMatchers answers during m)
    as (m1 & c & Hcase & _ & _ & _ & _ & _ & Hpromise).
  rewrite Hpromise.
  inversion Hcase as [err Herr | fetched' Hall' _ | fetched' Hall' Hdiff]; subst;
    rewrite Hall in *; simplify_eq; done.
Qed.

Lemma settle_flags p s m :
  reloadHasBeenCalled (settle p s m) = reloadHasBeenCalled m
  ∧ waitTillReadyPromise (settle p s m) = waitTillReadyPromise m.
Proof. unfold settle. by destruct (promises m !! p) as [[] |]. Qed.

Lemma forceReload_body_frame answers run m :
  providers (run_body answers run m).1 = providers m
  ∧ reloadHasBeenCalled (run_body answers run m).1 = reloadHasBeenCalled m
  ∧ waitTillReadyPromise (run_body answers run m).1 = waitTillReadyPromise m
  ∧ promises (run_body answers run m).1 = promises m.
Proof.
  rewrite forceReload_body_eq.
  destruct (promise_all (answers <$> called run)) as [fetched | err]; [| done].
  cbv zeta. by destruct (_ && _).
Qed.

(** What a resumed reload leaves of the fields it does not compile. *)
Lemma forceReload_resume_frame answers run m :
  providers (run_resume answers run m).1 = providers m
  ∧ reloadHasBeenCalled (run_resume answers run m).1 = reloadHasBeenCalled m
  ∧ waitTillReadyPromise (run_resume answers run m).1 = waitTillReadyPromise m
  ∧ lastCompilationID (run_resume answers run m).1 = entryCompilationID run
  ∧ (run_resume answers run m).2 = Fulfilled ().
Proof.
  unfold forceReload_resume, try_catch_finally.
  destruct (forceReload_body_frame answers run m) as (Hp & Hr & Hw & _).
  destruct (run_body answers run m) as [m1 c]. cbn [fst] in *.
  destruct c as [| | err]; cbn [fst snd async_result].
  - destruct (settle_fields (callbacks run) Resolved
                (set_lastCompilationID (entryCompilationID run) m1)) as (-> & _ & _ & ->).
    destruct (settle_flags (callbacks run) Resolved
                (set_lastCompilationID (entryCompilationID run) m1)) as (-> & ->).
    done.
  - destruct (settle_fields (callbacks run) Resolved
                (set_lastCompilationID (entryCompilationID run) m1)) as (-> & _ & _ & ->).
    destruct (settle_flags (callbacks run) Resolved
                (set_lastCompilationID (entryCompilationID run) m1)) as (-> & ->).
    done.
  - destruct (settle_fields (callbacks run) Resolved
                (set_lastCompilationID (entryCompilationID run)
                   (settle (callbacks run) (RejectedWith err) m1))) as (-> & _ & _ & ->).
    destruct (settle_flags (callbacks run) Resolved
                (set_lastCompilationID (entryCompilationID run)
                   (settle (callbacks run) (RejectedWith err) m1))) as (-> & ->).
    cbn [providers reloadHasBeenCalled waitTillReadyPromise lastCompilationID
         set_lastCompilationID].
    destruct (settle_fields (callbacks run) (RejectedWith err) m1) as (-> & _).
    destruct (settle_flags (callbacks run) (RejectedWith err) m1) as (-> & ->).
    done.
Qed.

Lemma forceReload_flags answers during m :
  reloadHasBeenCalled (run_reload answers during m).1 = true
  ∧ waitTillReadyPromise (run_reload answers during m).1 = Some (length (promises m)).
Proof.
  rewrite forceReload_eq.
  destruct (forceReload_resume_frame answers (forceReload_begin m).2 (resumed during m))
    as (_ & -> & -> & _). done.
Qed.

(** X12. [load] starts a reload at most once: once [load] or [forceReload]
    has been called, a later [load] changes nothing and calls no provider. *)
Theorem load_once answers1 during1 answers2 during2 m :
  load groupMatcherResults sortDynamicMatchers answers2 during2
    (load groupMatcherResults sortDynamicMatchers answers1 during1 m).1
    = ((load groupMatcherResults sortDynamicMatchers answers1 during1 m).1, Fulfilled ())
  ∧ load groupMatcherResults sortDynamicMatchers answers2 during2
      (forceReload groupMatcherResults sortDynamicMatchers answers1 during1 m).1
    = ((forceReload groupMatcherResults sortDynamicMatchers answers1 during1 m).1,
       Fulfilled ()).
Proof.
  split.
  - unfold load at 1.
    assert (Hflag : reloadHasBeenCalled (run_load answers1 during1 m).1 = true).
    { unfold load. destruct (reloadHasBeenCalled m) eqn:Hm; [done |].
      apply forceReload_flags. }
    by rewrite Hflag.
  - unfold load at 1.
    destruct (forceReload_flags answers1 during1 m) as [-> _]. done.
Qed.

(** X13. After a reload, [waitTillReady] does not suspend and reports how
    the reload ended: when the reload failed it throws the reload's error and
    keeps the promise (a later call throws again); when the reload succeeded
    it returns and forgets the promise. *)
Theorem waitTillReady_after_reload answers during m :
  match run_promise answers during m with
  | Some Resolved =>
      waitTillReady (run_reload answers during m).1
      = Some (set_waitTillReadyPromise None (run_reload answers during m).1, Fulfilled ())
  | Some (RejectedWith e) =>
      waitTillReady (run_reload answers during m).1
      = Some ((run_reload answers during m).1, Rejected e)
  | _ => False
  end.
Proof.
  destruct (forceReload_summary groupMatcherResults sortDynamicMatchers answers during m)
    as (m1 & c & _ & _ & _ & _ & _ & _ & Hpromise).
  destruct (forceReload_flags answers during m) as [_ Hwait].
  unfold waitTillReady. rewrite Hwait.
  unfold reload_promise in *. rewrite Hpromise. by destruct c.
Qed.

(** X14. A query without an output pathname on a compiled manager, when no
    matcher of the snapshot is a locale-aware matcher left without locale
    context: the generator returns, it has consulted [static] then [dynamic]
    entirely (only [dynamic] for a dynamic pattern), it yields every match
    in that order, and [match] returns the first of them, or [null]. *)
Theorem matchAll_all_successes m pathname opts :
  lastCompilationID m = compilationID m →
  truthy (matchedOutputPathname (options (normalize pathname opts))) = false →
  (∀ x, x ∈ static (matchers m) ++ dynamic (matchers m) →
        isLocaleRouteMatcher x = true →
        is_Some (i18n (options (normalize pathname opts)))) →
  let n := normalize pathname opts in
  let candidates := if isDynamicRoute pathname
                    then dynamic (matchers m)
                    else static (matchers m) ++ dynamic (matchers m) in
  finish (run_matchAll m pathname opts) = Returns ()
  ∧ consulted (run_matchAll m pathname opts) = candidates
  ∧ yields (run_matchAll m pathname opts) = successes n candidates
  ∧ run_match m pathname opts = Returns (head (successes n candidates)).
Proof.
  intros Hgood Hfalsy Hlocale n candidates.
  assert (Hok : ∀ ms, (∀ x, x ∈ ms → x ∈ static (matchers m) ++ dynamic (matchers m)) →
                  finish (yield_each ms n) = Returns ()).
  { intros ms Hsub. apply yield_each_returns. intros x Hx e He.
    destruct (validate_throws _ _ _ He) as (Hl & Hnone & _).
    destruct (Hlocale x (Hsub x Hx) Hl) as [info Hinfo].
    subst n. congruence. }
  assert (Hs : finish (yield_each (static (matchers m)) n) = Returns ()).
  { apply Hok. intros x Hx. apply elem_of_app. by left. }
  assert (Hd : finish (yield_each (dynamic (matchers m)) n) = Returns ()).
  { apply Hok. intros x Hx. apply elem_of_app. by right. }
  destruct (yield_each_spec (static (matchers m)) n) as (_ & Hs2 & Hs3 & _).
  destruct (yield_each_spec (dynamic (matchers m)) n) as (_ & Hd2 & Hd3 & _).
  assert (Hg : finish (run_matchAll m pathname opts) = Returns ()
               ∧ consulted (run_matchAll m pathname opts) = candidates
               ∧ yields (run_matchAll m pathname opts) = successes n candidates).
  { subst candidates. unfold matchAll. rewrite decide_False by (by intros ?).
    rewrite Hfalsy. fold n. destruct (isDynamicRoute pathname); cbn [negb].
    - unfold and_then. cbn [finish events app].
      rewrite Hd. split_and!; [done | by apply Hd3 |].
      unfold yields, consulted in *. cbn [events]. rewrite Hd2. by rewrite Hd3.
    - rewrite (and_then_returns _ _ Hs). cbn [finish].
      unfold yields, consulted in *. cbn [events]. rewrite !omap_app.
      rewrite Hs2, Hd2, (Hs3 Hs), (Hd3 Hd). split_and!; [done | done |].
      by rewrite successes_app. }
  destruct Hg as (Hfin & Hcons & Hyields). split_and!; try done.
  unfold match_. rewrite Hyields, Hfin. by destruct (successes n candidates).
Qed.

End ManagerMore.

(** ** The manager under interleaved operations *)

Section InterleavingFacts.
Variable groupMatcherResults :
  list RouteMatcher →
  gmap string (list RouteMatcher) * gmap string (list RouteMatcher).
Variable sortDynamicMatchers : list RouteMatcher → list RouteMatcher.

Local Abbreviation run_resume := (forceReload_resume groupMatcherResults sortDynamicMatchers).
Local Abbreviation run_body := (forceReload_body groupMatcherResults sortDynamicMatchers).
Local Abbreviation snapshot_of := (compiled groupMatcherResults sortDynamicMatchers).
Local Abbreviation can_reach := (reachable groupMatcherResults sortDynamicMatchers).
Local Abbreviation steps_to := (step groupMatcherResults sortDynamicMatchers).
Local Abbreviation consistent := (snapshot_of_previous groupMatcherResults sortDynamicMatchers).

(** [catch] and [finally] leave the snapshot as the [try] block left it. *)
Lemma forceReload_resume_matchers answers run m :
  matchers (run_resume answers run m).1 = matchers (run_body answers run m).1
  ∧ previousMatchers (run_resume answers run m).1
    = previousMatchers (run_body answers run m).1.
Proof.
  unfold forceReload_resume, try_catch_finally.
  destruct (run_body answers run m) as [m1 c].
  destruct c as [| | err]; cbn [fst].
  - destruct (settle_fields (callbacks run) Resolved
                (set_lastCompilationID (entryCompilationID run) m1)) as (_ & -> & -> & _).
    done.
  - destruct (settle_fields (callbacks run) Resolved
                (set_lastCompilationID (entryCompilationID run) m1)) as (_ & -> & -> & _).
    done.
  - destruct (settle_fields (callbacks run) Resolved
                (set_lastCompilationID (entryCompilationID run)
                   (settle (callbacks run) (RejectedWith err) m1))) as (_ & -> & -> & _).
    cbn [matchers previousMatchers set_lastCompilationID].
    by destruct (settle_fields (callbacks run) (RejectedWith err) m1) as (_ & -> & -> & _).
Qed.

(** What a resumed reload does to the snapshot: nothing, or it replaces
    [duplicates] alone, or it replaces the snapshot and [previousMatchers]
    together. *)
Lemma forceReload_resume_snapshot answers run m :
  (matchers (run_resume answers run m).1 = matchers m
   ∧ previousMatchers (run_resume answers run m).1 = previousMatchers m)
  ∨ (∃ d, matchers (run_resume answers run m).1 = set_duplicates d (matchers m)
          ∧ previousMatchers (run_resume answers run m).1 = previousMatchers m)
  ∨ (∃ fetched, matchers (run_resume answers run m).1 = snapshot_of fetched
                ∧ previousMatchers (run_resume answers run m).1 = fetched).
Proof.
  destruct (forceReload_resume_matchers answers run m) as [-> ->].
  rewrite forceReload_body_eq.
  destruct (promise_all (answers <$> called run)) as [fetched | err].
  - cbv zeta. destruct (_ && _); cbn [fst].
    + right. left. by eexists.
    + right. right. by eexists.
  - by left.
Qed.

Lemma snapshot_of_previous_resume answers run m :
  consistent m → consistent (run_resume answers run m).1.
Proof.
  intros Hm.
  destruct (forceReload_resume_snapshot answers run m)
    as [[Hmat Hprev] | [(d & Hmat & Hprev) | (fetched & Hmat & Hprev)]];
    unfold snapshot_of_previous in *; rewrite Hmat, Hprev.
  - done.
  - done.
  - by right.
Qed.

(** X15. Whatever the interleaving of [push], reloads (started, suspended,
    resumed in any order, succeeding or failing) and [waitTillReady] calls
    (started, suspended, resumed after other reloads have started), the
    [static], [dynamic] and [all] fields always come from one and the same
    list of matchers, the one kept in [previousMatchers]: [static] holds its
    matchers that are not dynamic, [dynamic] the sorted dynamic ones, [all]
    its grouping (or nothing has been compiled yet and all three are
    empty). *)
Theorem reachable_snapshot_of_previous c :
  reachable groupMatcherResults sortDynamicMatchers c →
  snapshot_of_previous groupMatcherResults sortDynamicMatchers (manager c).
Proof.
  induction 1 as [| c c' _ IH Hstep].
  - left. done.
  - destruct Hstep as [new m runs waits | m runs waits
                      | answers run m runs1 runs2 waits
                      | m runs waits p Hfield
                      | m runs waits1 waits2 p Hres
                      | m runs waits1 waits2 p e Hrej]; cbn [manager] in *.
    + done.
    + done.
    + by apply snapshot_of_previous_resume.
    + done.
    + done.
    + done.
Qed.

(** X16. Under any such interleaving, the version recorded as last compiled
    never exceeds the version counter, and no suspended reload has read a
    version that exceeds it. *)
Theorem reachable_versions c :
  reachable groupMatcherResults sortDynamicMatchers c →
  lastCompilationID (manager c) ≤ compilationID (manager c)
  ∧ Forall (λ run, entryCompilationID run ≤ compilationID (manager c)) (suspended c).
Proof.
  induction 1 as [| c c' _ [IHlast IHruns] Hstep].
  - split; [done | constructor].
  - destruct Hstep as [new m runs waits | m runs waits
                      | answers run m runs1 runs2 waits
                      | m runs waits p Hfield
                      | m runs waits1 waits2 p Hres
                      | m runs waits1 waits2 p e Hrej]; cbn [manager suspended] in *.
    + unfold compilationID, push in *. cbn [providers set_providers lastCompilationID].
      rewrite length_app. split; [lia |].
      eapply Forall_impl; [exact IHruns |]. intros run Hrun. simpl in Hrun. lia.
    + split; [done |]. apply Forall_app. split; [done |].
      constructor; [| constructor]. by rewrite forceReload_begin_run.
    + destruct (forceReload_resume_frame groupMatcherResults sortDynamicMatchers
                  answers run m) as (Hp & _ & _ & Hl & _).
      unfold compilationID in *. rewrite Hp, Hl.
      apply Forall_app in IHruns as [H1 H2]. apply Forall_cons in H2 as [Hrun H2].
      split; [done |]. apply Forall_app. done.
    + done.
    + done.
    + done.
Qed.

(** A resumed reload settles its own promise and touches no other. *)
Lemma forceReload_resume_promises answers run m :
  promises m !! callbacks run = Some Pending →
  ∃ s, s ≠ Pending
       ∧ promises (run_resume answers run m).1 = <[callbacks run := s]> (promises m).
Proof.
  intros Hpend. unfold forceReload_resume, try_catch_finally.
  destruct (forceReload_body_frame groupMatcherResults sortDynamicMatchers answers run m)
    as (_ & _ & _ & Hpr).
  destruct (run_body answers run m) as [m1 c]. cbn [fst] in Hpr.
  rewrite <- Hpr in Hpend.
  assert (Hresolve : promises (settle (callbacks run) Resolved
                                 (set_lastCompilationID (entryCompilationID run) m1))
                     = <[callbacks run := Resolved]> (promises m)).
  { unfold settle. cbn [promises set_lastCompilationID]. rewrite Hpend.
    cbn [promises set_promises]. by rewrite Hpr. }
  destruct c as [| | err]; cbn [fst].
  - exists Resolved. done.
  - exists Resolved. done.
  - exists (RejectedWith err). split; [done |].
    assert (Hrej : promises (settle (callbacks run) (RejectedWith err) m1)
                   = <[callbacks run := RejectedWith err]> (promises m)).
    { unfold settle. rewrite Hpend. cbn [promises set_promises]. by rewrite Hpr. }
    rewrite settle_settled; [by cbn [promises set_lastCompilationID] |].
    cbn [promises set_lastCompilationID]. rewrite Hrej.
    rewrite list_lookup_insert_eq; [done |].
    rewrite <- Hpr. by eapply lookup_lt_Some.
Qed.

Lemma reachable_promises c :
  can_reach c →
  promises_owned c
  ∧ (∀ p, waitTillReadyPromise (manager c) = Some p → p < length (promises (manager c)))
  ∧ Forall (λ p, p < length (promises (manager c))) (waiting c).
Proof.
  unfold promises_owned.
  induction 1 as [| c c' _ [[IHnd IHown] [IHwait IHwaiting]] Hstep].
  - cbn. split_and!; [constructor | | done | constructor].
    intros i. split; [done | by intros ?%elem_of_nil].
  - destruct Hstep as [new m runs waits | m runs waits
                      | answers run m runs1 runs2 waits
                      | m runs waits p Hfield
                      | m runs waits1 waits2 p Hres
                      | m runs waits1 waits2 p e Hrej]; cbn [manager suspended waiting] in *.
    + done.
    + rewrite forceReload_begin_run.
      cbn [forceReload_begin fst promises waitTillReadyPromise set_reloadHasBeenCalled
           set_waitTillReadyPromise set_promises].
      rewrite fmap_app. cbn [fmap list_fmap callbacks].
      assert (Hfresh : length (promises m) ∉ callbacks <$> runs).
      { intros Hin. apply IHown, lookup_lt_Some in Hin. lia. }
      split_and!.
      * apply NoDup_app. split_and!; [done | | apply NoDup_singleton].
        intros x Hx ->%list_elem_of_singleton. done.
      * intros i. rewrite elem_of_app, list_elem_of_singleton, <- IHown.
        destruct (decide (i < length (promises m))) as [Hlt | Hge].
        -- rewrite lookup_app_l by done. split; [by left | intros [? | ->]; [done | lia]].
        -- rewrite lookup_app_r by lia.
           destruct (decide (i = length (promises m))) as [-> | Hne].
           ++ rewrite Nat.sub_diag. split; [by right | done].
           ++ split.
              ** intros Hl. apply lookup_lt_Some in Hl. simpl in Hl. lia.
              ** intros [Hl | ?]; [apply lookup_lt_Some in Hl; lia | done].
      * intros p [= <-]. rewrite length_app. simpl. lia.
      * eapply Forall_impl; [exact IHwaiting |]. intros p Hp. simpl in Hp.
        rewrite length_app. lia.
    + assert (Hpend : promises m !! callbacks run = Some Pending).
      { apply IHown. rewrite fmap_app, fmap_cons, elem_of_app, elem_of_cons. auto. }
      destruct (forceReload_resume_promises answers run m Hpend) as (s & Hs & ->).
      destruct (forceReload_resume_frame groupMatcherResults sortDynamicMatchers
                  answers run m) as (_ & _ & -> & _).
      rewrite fmap_app, fmap_cons in IHnd.
      apply NoDup_app in IHnd as (Hnd1 & Hdisj & Hnd2).
      apply NoDup_cons in Hnd2 as [Hnotin2 Hnd2].
      assert (Hnotin1 : callbacks run ∉ callbacks <$> runs1).
      { intros Hin. apply (Hdisj _ Hin). by left. }
      rewrite fmap_app. split_and!.
      * apply NoDup_app. split_and!; [done | | done].
        intros x Hx Hx2. apply (Hdisj x Hx). by right.
      * intros i. destruct (decide (i = callbacks run)) as [-> | Hne].
        -- rewrite list_lookup_insert_eq by (by eapply lookup_lt_Some).
           rewrite elem_of_app. split; [by intros [= ->] | by intros [? | ?]].
        -- rewrite list_lookup_insert_ne by done. rewrite IHown.
           rewrite fmap_app, fmap_cons, !elem_of_app, elem_of_cons.
           split; [intros [? | [? | ?]]; by auto | intros [? | ?]; by auto].
      * intros p Hp. rewrite length_insert. by apply IHwait.
      * eapply Forall_impl; [exact IHwaiting |]. intros p Hp. simpl in Hp.
        by rewrite length_insert.
    + split_and!; [done | done | done |].
      apply Forall_app. split; [done |]. constructor; [by apply IHwait | constructor].
    + cbn [promises waitTillReadyPromise set_waitTillReadyPromise].
      apply Forall_app in IHwaiting as [H1 H2]. apply Forall_cons in H2 as [_ H2].
      split_and!; [done | done | done |]. by apply Forall_app.
    + apply Forall_app in IHwaiting as [H1 H2]. apply Forall_cons in H2 as [_ H2].
      split_and!; [done | done | done |]. by apply Forall_app.
Qed.

(** X17. Under any such interleaving, every suspended reload owns a promise
    that is still pending, no two reloads own the same promise, and every
    other promise has been settled: a reload settles its promise when it
    ends, and nothing else does. *)
Theorem reachable_promises_owned c :
  reachable groupMatcherResults sortDynamicMatchers c → promises_owned c.
Proof. intros Hc. by destruct (reachable_promises c Hc). Qed.

(** X18. Under any such interleaving: when the promise that a call to
    [waitTillReady] would await is still pending, a reload is in flight; and
    every [waitTillReady] call that is suspended awaits a promise that
    exists and is either settled or owned by a reload in flight, so that it
    resumes at the latest when the reloads in flight have ended. *)
Theorem waitTillReady_suspends_only_in_flight c :
  reachable groupMatcherResults sortDynamicMatchers c →
  (waitTillReady (manager c) = None → suspended c ≠ [])
  ∧ ∀ p, p ∈ waiting c →
         ∃ s, promises (manager c) !! p = Some s
              ∧ (s = Pending → p ∈ callbacks <$> suspended c).
Proof.
  intros Hc. destruct (reachable_promises c Hc) as ([_ Hown] & Hvalid & Hwaiting).
  split.
  - intros Hwait. unfold waitTillReady in Hwait.
    destruct (waitTillReadyPromise (manager c)) as [p |] eqn:Hw; [| done].
    specialize (Hvalid p eq_refl). apply lookup_lt_is_Some in Hvalid as [s Hs].
    rewrite Hs in Hwait. destruct s; try done.
    apply Hown in Hs. intros Hnil. rewrite Hnil in Hs. by apply elem_of_nil in Hs.
  - intros p Hp. rewrite Forall_forall in Hwaiting.
    apply Hwaiting, lookup_lt_is_Some in Hp as [s Hs].
    exists s. split; [done |]. intros ->. by apply Hown.
Qed.

End InterleavingFacts.

(** ** The providers of app pages *)

Lemma Forall2_elem_r {A B} (P : A → B → Prop) (l : list A) (k : list B) (y : B) :
  Forall2 P l k → y ∈ k → ∃ x, x ∈ l ∧ P x y.
Proof.
  induction 1 as [| x y' l k Hxy _ IH]; intros Hy.
  - by apply elem_of_nil in Hy.
  - apply elem_of_cons in Hy as [-> | Hy].
    + exists x. split; [by left | done].
    + destruct (IH Hy) as (x' & Hx' & HP). exists x'. split; [by right | done].
Qed.

Lemma mapM_total {A B} (f : A → option B) (P : A → B → Prop) (l : list A) :
  (∀ a, a ∈ l → ∃ b, f a = Some b ∧ P a b) →
  ∃ bs, mapM f l = Some bs ∧ Forall2 P l bs.
Proof.
  induction l as [| a l IH]; intros Hf.
  - exists []. split; [done | constructor].
  - destruct (Hf a) as (b & Hb & HP); [by left |].
    destruct IH as (bs & Hbs & HF); [intros a' Ha'; apply Hf; by right |].
    exists (b :: bs). split; [| by constructor].
    apply mapM_Some. constructor; [done | by apply mapM_Some].
Qed.

Lemma pages_of_elem k g ps : g ∈ pages_of k ps ↔ (k, g) ∈ ps.
Proof.
  unfold pages_of. rewrite list_elem_of_fmap. split.
  - intros ([k' g'] & -> & [Hk Hin]%list_elem_of_filter). simpl in Hk. by subst.
  - intros Hin. exists (k, g). split; [done |]. by apply list_elem_of_filter.
Qed.

Lemma sorted_array_elem ps a :
  a ∈ AppPathsCollector.toSortedArray
        (AppPathsCollector.push_all ps AppPathsCollector.empty).1
  ↔ ∃ k, k ∈ ps.*1
         ∧ a = mkAppPaths (last (js_sort (pages_of k ps))) k (js_sort (pages_of k ps)).
Proof.
  unfold AppPathsCollector.toSortedArray. rewrite list_elem_of_omap.
  unfold AppPathsCollector.pathnames. split.
  - intros (k & Hk & Hget). rewrite js_sort_elem_of, keys_after_pushes in Hk.
    rewrite get_after_pushes, aggregate_pushed in Hget by done.
    exists k. split; [done | congruence].
  - intros (k & Hk & ->). exists k.
    rewrite js_sort_elem_of, keys_after_pushes, get_after_pushes.
    split; [done | by apply aggregate_pushed].
Qed.

Lemma aggregate_page k ps :
  k ∈ ps.*1 → ∃ g, last (js_sort (pages_of k ps)) = Some g ∧ (k, g) ∈ ps.
Proof.
  intros Hk. destruct (last (js_sort (pages_of k ps))) as [g |] eqn:Hlast.
  - exists g. split; [done |]. apply pages_of_elem, js_sort_elem_of.
    by apply last_Some_elem_of.
  - apply last_None, (f_equal length) in Hlast.
    rewrite js_sort_length in Hlast. apply nil_length_inv in Hlast.
    by apply pages_of_nil_iff in Hlast.
Qed.

Lemma sorted_array_pushes_perm ps1 ps2 :
  ps1 ≡ₚ ps2 →
  AppPathsCollector.toSortedArray (AppPathsCollector.push_all ps1 AppPathsCollector.empty).1
  = AppPathsCollector.toSortedArray
      (AppPathsCollector.push_all ps2 AppPathsCollector.empty).1.
Proof.
  intros Hperm. unfold AppPathsCollector.toSortedArray.
  rewrite (pathnames_after_pushes_perm _ _ Hperm).
  apply omap_ext_all. intros k. rewrite !get_after_pushes.
  by apply aggregate_perm, pages_of_perm.
Qed.

Lemma map_get_Some_elem {V} (m : JsMap V) k v :
  NoDup (map_keys m) → map_get k m = Some v ↔ (k, v) ∈ m.
Proof.
  unfold map_keys. induction m as [| [k' v'] m IH]; csimpl; intros Hnd.
  - split; [done | by intros ?%elem_of_nil].
  - apply NoDup_cons in Hnd as [Hnotin Hnd]. rewrite elem_of_cons.
    destruct (decide (k = k')) as [-> | Hne].
    + split; [intros [= ->]; by left |].
      intros [[= ->] | Hin]; [done |].
      destruct Hnotin. apply list_elem_of_fmap. by exists (k', v).
    + rewrite (IH Hnd). split; [by right | intros [[= -> _] | ?]; done].
Qed.

Lemma map_get_perm {V} (m1 m2 : JsMap V) k :
  NoDup (map_keys m1) → m1 ≡ₚ m2 → map_get k m1 = map_get k m2.
Proof.
  intros Hnd Hperm.
  assert (Hnd2 : NoDup (map_keys m2)) by (unfold map_keys in *; by rewrite <- Hperm).
  destruct (map_get k m1) as [v |] eqn:H1.
  - symmetry. apply map_get_Some_elem; [done |]. rewrite <- Hperm.
    by apply map_get_Some_elem.
  - destruct (map_get k m2) as [v |] eqn:H2; [| done].
    apply map_get_Some_elem in H2; [| done]. rewrite <- Hperm in H2.
    apply map_get_Some_elem in H2; [| done]. congruence.
Qed.

Section ManifestProviderFacts.
Variable isAppPageRoute : string → bool.
Variable normalize_pathname : string → string.
Variable normalize_filename : string → string.
Variable normalize_bundlePath : string → string.

Local Abbreviation manifest_pages := (AppPageRouteMatcherProvider.pages isAppPageRoute).
Local Abbreviation manifest_collect :=
  (AppPageRouteMatcherProvider.collect isAppPageRoute normalize_pathname).
Local Abbreviation manifest_define :=
  (AppPageRouteMatcherProvider.define normalize_filename normalize_bundlePath).
Local Abbreviation manifest_prepare :=
  (AppPageRouteMatcherProvider.prepare isAppPageRoute normalize_pathname
     normalize_filename normalize_bundlePath).
Local Abbreviation manifest_defined :=
  (AppPageRouteMatcherProvider.defined normalize_filename normalize_bundlePath).

(** The pairs pushed by the first loop. *)
Local Abbreviation manifest_pushes manifest :=
  ((λ pg, (normalize_pathname pg, pg)) <$> manifest_pages manifest).

Lemma manifest_pushes_elem manifest k g :
  (k, g) ∈ manifest_pushes manifest
  ↔ isAppPageRoute g = true ∧ g ∈ map_keys manifest ∧ normalize_pathname g = k.
Proof.
  rewrite list_elem_of_fmap. unfold AppPageRouteMatcherProvider.pages. split.
  - intros (pg & [= -> ->] & [Hroute Hin]%list_elem_of_filter). done.
  - intros (Hroute & Hin & <-). exists g. split; [done |].
    by apply list_elem_of_filter.
Qed.

Lemma manifest_prepare_total manifest :
  ∃ defs,
    manifest_prepare manifest = Some defs
    ∧ Forall2 (manifest_defined manifest)
        (AppPathsCollector.toSortedArray (manifest_collect manifest)) defs.
Proof.
  unfold AppPageRouteMatcherProvider.prepare. apply mapM_total.
  intros a Ha. unfold AppPageRouteMatcherProvider.collect in Ha.
  apply sorted_array_elem in Ha as (k & Hk & ->).
  destruct (aggregate_page k _ Hk) as (g & Hlast & Hin).
  apply manifest_pushes_elem in Hin as (Hroute & Hkey & <-).
  apply map_get_is_Some in Hkey as [entry Hentry].
  unfold AppPageRouteMatcherProvider.define. cbn [page pathname appPaths].
  rewrite Hlast, Hentry. eexists. split; [done |].
  unfold AppPageRouteMatcherProvider.defined. cbn. split_and!; try done.
  by exists entry.
Qed.

Lemma Forall2_pathnames {A} (P : AppPaths → A → Prop) (proj : A → string) out defs :
  Forall2 P out defs →
  (∀ a d, P a d → proj d = pathname a) →
  proj <$> defs = pathname <$> out.
Proof.
  intros HF HP. induction HF as [| a d out defs Had _ IH]; csimpl; [done |].
  by rewrite (HP a d Had), IH.
Qed.

(** X19. [prepare] of the manifest provider always runs to its end, and
    every definition it returns is built from the manifest: its [page] is a
    key of the manifest that is an app page route and normalizes to the
    definition's [pathname]; its [filename] and [bundlePath] are the
    normalized manifest entry and page; its [appPaths] are, sorted, exactly
    the app page keys that normalize to that pathname, and [page] is the
    greatest of them. *)
Theorem manifest_prepare_definitions (manifest : JsMap string) :
  ∃ defs,
    AppPageRouteMatcherProvider.prepare isAppPageRoute normalize_pathname
      normalize_filename normalize_bundlePath manifest = Some defs
    ∧ ∀ d, d ∈ defs →
        RouteDefinition.kind d = APP_PAGE
        ∧ normalize_pathname (RouteDefinition.page d) = RouteDefinition.pathname d
        ∧ (∃ entry, map_get (RouteDefinition.page d) manifest = Some entry
                    ∧ RouteDefinition.filename d = normalize_filename entry)
        ∧ RouteDefinition.bundlePath d = normalize_bundlePath (RouteDefinition.page d)
        ∧ Sorted String.le (RouteDefinition.appPaths d)
        ∧ (∀ pg, pg ∈ RouteDefinition.appPaths d
                 ↔ isAppPageRoute pg = true ∧ pg ∈ map_keys manifest
                   ∧ normalize_pathname pg = RouteDefinition.pathname d)
        ∧ RouteDefinition.page d ∈ RouteDefinition.appPaths d
        ∧ ∀ pg, pg ∈ RouteDefinition.appPaths d → String.le pg (RouteDefinition.page d).
Proof.
  destruct (manifest_prepare_total manifest) as (defs & Hdefs & HF).
  exists defs. split; [done |]. intros d Hd.
  destruct (Forall2_elem_r _ _ _ _ HF Hd) as (a & Ha & Hkind & Hpath & Happ & Hpage & Hbundle & Hentry).
  unfold AppPageRouteMatcherProvider.collect in Ha.
  apply sorted_array_elem in Ha as (k & Hk & ->).
  cbn [page pathname appPaths] in *. rewrite Hpath, Happ.
  assert (Hmem : ∀ pg, pg ∈ js_sort (pages_of k (manifest_pushes manifest))
                       ↔ isAppPageRoute pg = true ∧ pg ∈ map_keys manifest
                         ∧ normalize_pathname pg = k).
  { intros pg. by rewrite js_sort_elem_of, pages_of_elem, manifest_pushes_elem. }
  assert (Hin : RouteDefinition.page d ∈ js_sort (pages_of k (manifest_pushes manifest)))
    by (by apply last_Some_elem_of).
  split_and!; try done.
  - by apply Hmem in Hin as (_ & _ & ?).
  - apply js_sort_Sorted.
  - intros pg Hpg. eapply sorted_last_greatest; eauto using js_sort_Sorted.
Qed.

(** X20. The definitions returned by the manifest provider come in
    lexicographic order of their pathnames, one definition for each pathname
    that some app page key of the manifest normalizes to. *)
Theorem manifest_prepare_sorted (manifest : JsMap string) :
  ∃ defs,
    AppPageRouteMatcherProvider.prepare isAppPageRoute normalize_pathname
      normalize_filename normalize_bundlePath manifest = Some defs
    ∧ Sorted String.le (RouteDefinition.pathname <$> defs)
    ∧ NoDup (RouteDefinition.pathname <$> defs)
    ∧ ∀ k, k ∈ RouteDefinition.pathname <$> defs
           ↔ ∃ pg, isAppPageRoute pg = true ∧ pg ∈ map_keys manifest
                   ∧ normalize_pathname pg = k.
Proof.
  destruct (manifest_prepare_total manifest) as (defs & Hdefs & HF).
  exists defs. split; [done |].
  rewrite (Forall2_pathnames _ RouteDefinition.pathname _ _ HF)
    by (by intros a d (_ & ? & _)).
  unfold AppPageRouteMatcherProvider.collect.
  rewrite (pathnames_of_sorted_array (manifest_pushes manifest)).
  unfold AppPathsCollector.pathnames. split_and!.
  - apply js_sort_Sorted.
  - rewrite js_sort_Permutation. apply map_keys_push_all_NoDup. constructor.
  - intros k. rewrite js_sort_elem_of, keys_after_pushes, list_elem_of_fmap. split.
    + intros ([k' g] & -> & Hin). exists g. by apply manifest_pushes_elem in Hin.
    + intros (pg & Hroute & Hkey & Hnorm). exists (k, pg). split; [done |].
      by apply manifest_pushes_elem.
Qed.

Lemma manifest_pages_perm m1 m2 : m1 ≡ₚ m2 → manifest_pages m1 ≡ₚ manifest_pages m2.
Proof.
  intros Hperm. unfold AppPageRouteMatcherProvider.pages, map_keys. by rewrite Hperm.
Qed.

(** X21. The definitions returned by the manifest provider depend on the
    entries of the manifest and not on the order of its keys. *)
Theorem manifest_prepare_key_order (manifest1 manifest2 : JsMap string) :
  NoDup (map_keys manifest1) →
  manifest1 ≡ₚ manifest2 →
  AppPageRouteMatcherProvider.prepare isAppPageRoute normalize_pathname
      normalize_filename normalize_bundlePath manifest1
  = AppPageRouteMatcherProvider.prepare isAppPageRoute normalize_pathname
      normalize_filename normalize_bundlePath manifest2.
Proof.
  intros Hnd Hperm. unfold AppPageRouteMatcherProvider.prepare.
  assert (Hout : AppPathsCollector.toSortedArray (manifest_collect manifest1)
                 = AppPathsCollector.toSortedArray (manifest_collect manifest2)).
  { unfold AppPageRouteMatcherProvider.collect. apply sorted_array_pushes_perm.
    by apply fmap_Permutation, manifest_pages_perm. }
  rewrite Hout. apply mapM_ext. intros a.
  unfold AppPageRouteMatcherProvider.define. destruct (page a) as [pg |]; [| done].
  by rewrite (map_get_perm manifest1 manifest2 pg Hnd Hperm).
Qed.

Lemma map_get_filter_key (P : string → bool) (m : list (string * string)) k :
  P k = true → map_get k (filter (λ kv, P kv.1 = true) m) = map_get k m.
Proof.
  intros HP. induction m as [| [k' v'] m IH]; [done |].
  destruct (decide (P k' = true)) as [HP' | HP'].
  - rewrite filter_cons_True by done. simpl. by rewrite IH.
  - rewrite filter_cons_False by done. simpl.
    destruct (decide (k = k')) as [-> | Hne]; [done | by rewrite IH].
Qed.

Lemma manifest_pages_filter (m : list (string * string)) :
  manifest_pages (filter (λ kv, isAppPageRoute kv.1 = true) m) = manifest_pages m.
Proof.
  unfold AppPageRouteMatcherProvider.pages, map_keys.
  induction m as [| [k v] m IH]; [done |].
  destruct (decide (isAppPageRoute k = true)) as [HP | HP].
  - rewrite filter_cons_True by done. csimpl.
    rewrite !filter_cons_True by done. by rewrite IH.
  - rewrite filter_cons_False by done. csimpl.
    rewrite filter_cons_False by done. by rewrite IH.
Qed.

(** X22. The keys of the manifest that are not app page routes have no
    influence: removing them from the manifest leaves the result as it is. *)
Theorem manifest_prepare_ignores_other_keys (manifest : list (string * string)) :
  AppPageRouteMatcherProvider.prepare isAppPageRoute normalize_pathname
      normalize_filename normalize_bundlePath
    (filter (λ kv, isAppPageRoute kv.1 = true) manifest)
  = AppPageRouteMatcherProvider.prepare isAppPageRoute normalize_pathname
      normalize_filename normalize_bundlePath manifest.
Proof.
  unfold AppPageRouteMatcherProvider.prepare, AppPageRouteMatcherProvider.collect.
  rewrite manifest_pages_filter.
  apply Forall_mapM_ext, Forall_forall. intros a Ha.
  apply sorted_array_elem in Ha as (k & Hk & ->).
  destruct (aggregate_page k _ Hk) as (g & Hlast & Hin).
  apply manifest_pushes_elem in Hin as (Hroute & _ & _).
  unfold AppPageRouteMatcherProvider.define. cbn [page]. rewrite Hlast.
  by rewrite map_get_filter_key.
Qed.

End ManifestProviderFacts.

Lemma manifest_prepare_key_order_witness :
  NoDup (map_keys [("/a/page", "a.js"); ("/a@m/page", "m.js")])
  ∧ [("/a/page", "a.js"); ("/a@m/page", "m.js")]
    ≡ₚ [("/a@m/page", "m.js"); ("/a/page", "a.js")]
  ∧ DemoProviders.prepare_manifest [("/a/page", "a.js"); ("/a@m/page", "m.js")]
    = DemoProviders.prepare_manifest [("/a@m/page", "m.js"); ("/a/page", "a.js")].
Proof.
  assert (H1 : NoDup (map_keys [("/a/page", "a.js"); ("/a@m/page", "m.js")])).
  { apply NoDup_ListNoDup. vm_compute. repeat constructor; simpl; intuition discriminate. }
  assert (H2 : [("/a/page", "a.js"); ("/a@m/page", "m.js")]
               ≡ₚ [("/a@m/page", "m.js"); ("/a/page", "a.js")]) by apply perm_swap.
  split_and!; [exact H1 | exact H2 |].
  exact (manifest_prepare_key_order DemoProviders.accept_all DemoProviders.before_at
           DemoProviders.same DemoProviders.same _ _ H1 H2).
Defined.

(** Two manifest keys that normalize to one pathname give one definition,
    with both keys in [appPaths] and the greater one as [page]. *)
Example manifest_prepare_run :
  DemoProviders.prepare_manifest [("/a@m/page", "m.js"); ("/b", "b.js"); ("/a", "a.js")]
  = Some [ RouteDefinition.mk APP_PAGE "/a" "/a@m/page" "/a@m/page" "m.js"
             ["/a"; "/a@m/page"];
           RouteDefinition.mk APP_PAGE "/b" "/b" "/b" "b.js" ["/b"] ].
Proof. vm_compute. reflexivity. Qed.

Section DevProviderFacts.
Variable expression_test : string → bool.
Variable normalize_page : string → string.
Variable normalize_pathname : string → string.
Variable normalize_bundlePath : string → string.

Local Abbreviation dev_accepted :=
  (DevAppPageRouteMatcherProvider.accepted expression_test normalize_page).
Local Abbreviation dev_scan_file :=
  (DevAppPageRouteMatcherProvider.scan_file expression_test normalize_page normalize_pathname).
Local Abbreviation dev_scan :=
  (DevAppPageRouteMatcherProvider.scan expression_test normalize_page normalize_pathname).
Local Abbreviation dev_define :=
  (DevAppPageRouteMatcherProvider.define normalize_bundlePath).
Local Abbreviation dev_defined :=
  (DevAppPageRouteMatcherProvider.defined normalize_bundlePath).
Local Abbreviation dev_prepare :=
  (DevAppPageRouteMatcherProvider.prepare expression_test normalize_page
     normalize_pathname normalize_bundlePath).

(** The files that the first loop keeps, and the pairs it pushes. *)
Local Abbreviation kept files := (filter (λ f, dev_accepted f = true) files).
Local Abbreviation dev_pushes files :=
  ((λ f, (normalize_pathname f, normalize_page f)) <$> kept files).

Lemma dev_scan_file_skipped st f :
  dev_accepted f = false → dev_scan_file st f = st.
Proof.
  unfold DevAppPageRouteMatcherProvider.accepted,
    DevAppPageRouteMatcherProvider.scan_file.
  destruct (expression_test f); [| done]. cbn [negb andb].
  by destruct (includes "/_" (normalize_page f)).
Qed.

Lemma dev_scan_file_kept st f :
  dev_accepted f = true →
  DevAppPageRouteMatcherProvider.routePages (dev_scan_file st f)
    = <[normalize_page f := f]> (DevAppPageRouteMatcherProvider.routePages st)
  ∧ DevAppPageRouteMatcherProvider.routeAppPaths (dev_scan_file st f)
    = (AppPathsCollector.push (normalize_pathname f) (normalize_page f)
         (DevAppPageRouteMatcherProvider.routeAppPaths st)).1.
Proof.
  unfold DevAppPageRouteMatcherProvider.accepted,
    DevAppPageRouteMatcherProvider.scan_file.
  destruct (expression_test f); [| done]. cbn [negb andb].
  destruct (includes "/_" (normalize_page f)); [done |]. intros _.
  by destruct (AppPathsCollector.push _ _ _).
Qed.

Lemma dev_scan_fold st (files : list string) :
  DevAppPageRouteMatcherProvider.routePages (foldl dev_scan_file st files)
    = foldl (λ rp f, <[normalize_page f := f]> rp)
        (DevAppPageRouteMatcherProvider.routePages st) (kept files)
  ∧ DevAppPageRouteMatcherProvider.routeAppPaths (foldl dev_scan_file st files)
    = (AppPathsCollector.push_all (dev_pushes files)
         (DevAppPageRouteMatcherProvider.routeAppPaths st)).1.
Proof.
  revert st. induction files as [| f files IH]; intros st; [done |].
  cbn [foldl]. destruct (dev_accepted f) eqn:Hacc.
  - rewrite filter_cons_True by done. rewrite fmap_cons, push_all_cons.
    cbv zeta. cbn [fst foldl].
    destruct (dev_scan_file_kept st f Hacc) as [Hrp Hc].
    destruct (IH (dev_scan_file st f)) as [-> ->]. by rewrite Hrp, Hc.
  - rewrite filter_cons_False by (by rewrite Hacc).
    rewrite dev_scan_file_skipped by done. apply IH.
Qed.

Lemma route_pages_lookup (rp : gmap string string) (l : list string) (p : string) :
  foldl (λ rp f, <[normalize_page f := f]> rp) rp l !! p
  = match last (filter (λ f, normalize_page f = p) l) with
    | Some f => Some f
    | None => rp !! p
    end.
Proof.
  revert rp. induction l as [| f l IH]; intros rp; [done |].
  cbn [foldl]. rewrite IH. destruct (decide (normalize_page f = p)) as [<- | Hne].
  - rewrite filter_cons_True by done. rewrite last_cons.
    destruct (last (filter _ l)); [done |]. by rewrite lookup_insert_eq.
  - rewrite filter_cons_False by done.
    destruct (last (filter _ l)); [done |]. by rewrite lookup_insert_ne.
Qed.

Lemma dev_scan_pages (files : list string) p :
  DevAppPageRouteMatcherProvider.routePages (dev_scan files) !! p
  = last (filter (λ f, normalize_page f = p) (kept files)).
Proof.
  unfold DevAppPageRouteMatcherProvider.scan.
  destruct (dev_scan_fold
              {| DevAppPageRouteMatcherProvider.routePages := ∅;
                 DevAppPageRouteMatcherProvider.routePathnames := [];
                 DevAppPageRouteMatcherProvider.routeAppPaths := AppPathsCollector.empty |}
              files) as [-> _].
  rewrite route_pages_lookup. cbn. by destruct (last _).
Qed.

Lemma dev_scan_collector (files : list string) :
  DevAppPageRouteMatcherProvider.routeAppPaths (dev_scan files)
  = (AppPathsCollector.push_all (dev_pushes files) AppPathsCollector.empty).1.
Proof.
  unfold DevAppPageRouteMatcherProvider.scan.
  by destruct (dev_scan_fold
              {| DevAppPageRouteMatcherProvider.routePages := ∅;
                 DevAppPageRouteMatcherProvider.routePathnames := [];
                 DevAppPageRouteMatcherProvider.routeAppPaths := AppPathsCollector.empty |}
              files) as [_ ->].
Qed.

Lemma dev_pushes_elem (files : list string) k g :
  (k, g) ∈ dev_pushes files
  ↔ ∃ f, f ∈ files ∧ dev_accepted f = true
         ∧ normalize_page f = g ∧ normalize_pathname f = k.
Proof.
  rewrite list_elem_of_fmap. split.
  - intros (f & [= -> ->] & [Hacc Hin]%list_elem_of_filter). by exists f.
  - intros (f & Hin & Hacc & <- & <-). exists f. split; [done |].
    by apply list_elem_of_filter.
Qed.

Lemma dev_prepare_total (files : list string) :
  ∃ defs,
    dev_prepare files = Some defs
    ∧ Forall2 (dev_defined (dev_scan files))
        (AppPathsCollector.toSortedArray
           (AppPathsCollector.push_all (dev_pushes files) AppPathsCollector.empty).1)
        defs.
Proof.
  unfold DevAppPageRouteMatcherProvider.prepare. cbv zeta.
  rewrite dev_scan_collector. apply mapM_total.
  intros a Ha. apply sorted_array_elem in Ha as (k & Hk & ->).
  destruct (aggregate_page k _ Hk) as (g & Hlast & Hin).
  apply dev_pushes_elem in Hin as (f & Hf & Hacc & Hpage & Hpath).
  destruct (last (filter (λ f, normalize_page f = g) (kept files))) as [f' |] eqn:Hf'.
  - unfold DevAppPageRouteMatcherProvider.define. cbn [page pathname appPaths].
    rewrite Hlast, dev_scan_pages, Hf'. eexists. split; [done |].
    unfold DevAppPageRouteMatcherProvider.defined. cbn.
    by rewrite dev_scan_pages.
  - apply last_None in Hf'.
    assert (Hin : f ∈ filter (λ f, normalize_page f = g) (kept files)).
    { apply list_elem_of_filter. split; [done |]. by apply list_elem_of_filter. }
    rewrite Hf' in Hin. by apply elem_of_nil in Hin.
Qed.


(** X24. The definitions returned by the development provider come in
    lexicographic order of their pathnames, one definition for each pathname
    of a kept file. *)
Theorem dev_prepare_sorted (files : list string) :
  ∃ defs,
    DevAppPageRouteMatcherProvider.prepare expression_test normalize_page
      normalize_pathname normalize_bundlePath files = Some defs
    ∧ Sorted String.le (RouteDefinition.pathname <$> defs)
    ∧ NoDup (RouteDefinition.pathname <$> defs)
    ∧ ∀ k, k ∈ RouteDefinition.pathname <$> defs
           ↔ ∃ f, f ∈ files ∧ dev_accepted f = true ∧ normalize_pathname f = k.
Proof.
  destruct (dev_prepare_total files) as (defs & Hdefs & HF).
  exists defs. split; [done |].
  rewrite (Forall2_pathnames _ RouteDefinition.pathname _ _ HF)
    by (by intros a d (_ & ? & _)).
  rewrite (pathnames_of_sorted_array (dev_pushes files)).
  unfold AppPathsCollector.pathnames. split_and!.
  - apply js_sort_Sorted.
  - rewrite js_sort_Permutation. apply map_keys_push_all_NoDup. constructor.
  - intros k. rewrite js_sort_elem_of, keys_after_pushes, list_elem_of_fmap. split.
    + intros ([k' g] & -> & Hin).
      apply dev_pushes_elem in Hin as (f & ? & ? & _ & ?). by exists f.
    + intros (f & Hin & Hacc & Hnorm). exists (k, normalize_page f). split; [done |].
      apply dev_pushes_elem. by exists f.
Qed.

Lemma kept_kept (files : list string) : kept (kept files) = kept files.
Proof.
  induction files as [| f files IH]; [done |].
  destruct (decide (dev_accepted f = true)) as [Hacc | Hacc].
  - rewrite !filter_cons_True by done. by rewrite IH.
  - by rewrite filter_cons_False by done.
Qed.

Lemma dev_prepare_ext (files1 files2 : list string) :
  AppPathsCollector.toSortedArray
    (AppPathsCollector.push_all (dev_pushes files1) AppPathsCollector.empty).1
  = AppPathsCollector.toSortedArray
      (AppPathsCollector.push_all (dev_pushes files2) AppPathsCollector.empty).1 →
  (∀ p, last (filter (λ f, normalize_page f = p) (kept files1))
        = last (filter (λ f, normalize_page f = p) (kept files2))) →
  dev_prepare files1 = dev_prepare files2.
Proof.
  intros Hout Hpages. unfold DevAppPageRouteMatcherProvider.prepare. cbv zeta.
  rewrite !dev_scan_collector, Hout. apply mapM_ext. intros a.
  unfold DevAppPageRouteMatcherProvider.define. destruct (page a) as [pg |]; [| done].
  by rewrite !dev_scan_pages, Hpages.
Qed.

(** X25. The files that are not page files, and the page files of ignored
    pages, have no influence: removing them from the list leaves the result
    as it is. *)
Theorem dev_prepare_ignores_skipped (files : list string) :
  DevAppPageRouteMatcherProvider.prepare expression_test normalize_page
      normalize_pathname normalize_bundlePath (kept files)
  = DevAppPageRouteMatcherProvider.prepare expression_test normalize_page
      normalize_pathname normalize_bundlePath files.
Proof. apply dev_prepare_ext; [by rewrite kept_kept | intros p; by rewrite kept_kept]. Qed.

Lemma last_perm_same {A} (l1 l2 : list A) :
  l1 ≡ₚ l2 → (∀ x y, x ∈ l1 → y ∈ l1 → x = y) → last l1 = last l2.
Proof.
  intros Hperm Hsame.
  destruct (last l1) as [x |] eqn:H1, (last l2) as [y |] eqn:H2; try done.
  - f_equal. apply Hsame; [by apply last_Some_elem_of |].
    rewrite Hperm. by apply last_Some_elem_of.
  - apply last_None in H2. subst. apply Permutation_nil_r in Hperm. by subst.
  - apply last_None in H1. subst. apply Permutation_nil_l in Hperm. by subst.
Qed.

(** X26. When no two kept files have the same page, the definitions
    returned by the development provider do not depend on the order in which
    the files are listed. *)
Theorem dev_prepare_file_order (files1 files2 : list string) :
  files1 ≡ₚ files2 →
  (∀ f g, f ∈ kept files1 → g ∈ kept files1 →
          normalize_page f = normalize_page g → f = g) →
  DevAppPageRouteMatcherProvider.prepare expression_test normalize_page
      normalize_pathname normalize_bundlePath files1
  = DevAppPageRouteMatcherProvider.prepare expression_test normalize_page
      normalize_pathname normalize_bundlePath files2.
Proof.
  intros Hperm Hinj.
  assert (Hkept : kept files1 ≡ₚ kept files2) by (by rewrite Hperm).
  apply dev_prepare_ext.
  - apply sorted_array_pushes_perm. by apply fmap_Permutation.
  - intros p. apply last_perm_same; [by rewrite Hkept |].
    intros f g [Hf Hfin]%list_elem_of_filter [Hg Hgin]%list_elem_of_filter.
    apply Hinj; [done | done | congruence].
Qed.

End DevProviderFacts.

Lemma dev_prepare_file_order_witness :
  ["/a/page.js"; "/b/page.js"] ≡ₚ ["/b/page.js"; "/a/page.js"]
  ∧ DemoProviders.prepare_files ["/a/page.js"; "/b/page.js"]
    = DemoProviders.prepare_files ["/b/page.js"; "/a/page.js"].
Proof.
  assert (H1 : ["/a/page.js"; "/b/page.js"] ≡ₚ ["/b/page.js"; "/a/page.js"])
    by apply perm_swap.
  split; [exact H1 |].
  apply (dev_prepare_file_order DemoProviders.accept_all DemoProviders.same
           DemoProviders.before_at DemoProviders.same _ _ H1).
  intros f g _ _ Hfg. exact Hfg.
Defined.

(** Two files whose pathnames agree give one definition; a file under an
    ignored page gives none. *)
Example dev_prepare_run :
  DemoProviders.prepare_files ["/a@m/page.js"; "/_x/page.js"; "/a"]
  = Some [ RouteDefinition.mk APP_PAGE "/a" "/a@m/page.js" "/a@m/page.js" "/a@m/page.js"
             ["/a"; "/a@m/page.js"] ].
Proof. vm_compute. reflexivity. Qed.

(** ** The further properties on concrete runs *)

(** The run of [DemoRun], step by step. *)
Lemma demo_waiting_reachable :
  reachable Demo.groupMatcherResults Demo.sortDynamicMatchers
    (mkConfig DemoRun.first_started [DemoRun.first] [0]).
Proof.
  eapply reachable_step.
  - eapply reachable_step.
    + eapply reachable_step; [apply reachable_new |].
      apply (step_push _ _ [Provider 0] new_manager [] []).
    + apply (step_begin _ _ Demo.one_provider [] []).
  - apply (step_wait_begin _ _ DemoRun.first_started [DemoRun.first] [] 0).
    reflexivity.
Qed.

Lemma demo_race_reachable :
  reachable Demo.groupMatcherResults Demo.sortDynamicMatchers
    (mkConfig DemoRun.field_deleted [DemoRun.second] []).
Proof.
  eapply reachable_step.
  - eapply reachable_step.
    + eapply reachable_step; [apply demo_waiting_reachable |].
      apply (step_resume _ _ Demo.answers_about_slug DemoRun.first
               DemoRun.first_started [] [] [0]).
    + apply (step_begin _ _ DemoRun.first_ended [] [0]).
  - apply (step_wait_resolved _ _ DemoRun.second_started [DemoRun.second] [] [] 0).
    reflexivity.
Qed.

(** At the end of that run the first promise is resolved, the second is
    pending and the field is empty: a call to [waitTillReady] returns at
    once although the second reload is still in flight. *)
Example demo_race_state :
  promises DemoRun.field_deleted = [Resolved; Pending]
  ∧ waitTillReadyPromise DemoRun.field_deleted = None
  ∧ waitTillReady DemoRun.field_deleted = Some (DemoRun.field_deleted, Fulfilled ()).
Proof. split_and!; reflexivity. Qed.

Lemma reachable_snapshot_of_previous_witness :
  reachable Demo.groupMatcherResults Demo.sortDynamicMatchers
    (mkConfig DemoRun.field_deleted [DemoRun.second] [])
  ∧ snapshot_of_previous Demo.groupMatcherResults Demo.sortDynamicMatchers
      DemoRun.field_deleted.
Proof.
  split; [exact demo_race_reachable |].
  exact (reachable_snapshot_of_previous _ _ _ demo_race_reachable).
Defined.

Lemma reachable_versions_witness :
  reachable Demo.groupMatcherResults Demo.sortDynamicMatchers
    (mkConfig DemoRun.field_deleted [DemoRun.second] [])
  ∧ lastCompilationID DemoRun.field_deleted ≤ compilationID DemoRun.field_deleted.
Proof.
  split; [exact demo_race_reachable |].
  exact (proj1 (reachable_versions _ _ _ demo_race_reachable)).
Defined.

Lemma reachable_promises_owned_witness :
  reachable Demo.groupMatcherResults Demo.sortDynamicMatchers
    (mkConfig DemoRun.field_deleted [DemoRun.second] [])
  ∧ promises_owned (mkConfig DemoRun.field_deleted [DemoRun.second] []).
Proof.
  split; [exact demo_race_reachable |].
  exact (reachable_promises_owned _ _ _ demo_race_reachable).
Defined.

Lemma waitTillReady_suspends_only_in_flight_witness :
  reachable Demo.groupMatcherResults Demo.sortDynamicMatchers
    (mkConfig DemoRun.first_started [DemoRun.first] [0])
  ∧ waitTillReady DemoRun.first_started = None
  ∧ [DemoRun.first] ≠ [].
Proof.
  split_and!; [exact demo_waiting_reachable | reflexivity |].
  exact (proj1 (waitTillReady_suspends_only_in_flight _ _ _ demo_waiting_reachable)
           eq_refl).
Defined.

Lemma forceReload_with_push_then_matchAll_witness :
  [Provider 1] ≠ []
  ∧ Demo.matchAll (Demo.forceReload Demo.answers_about [Provider 1] Demo.one_provider).1
      "/about" Demo.plain
    = {| events := []; finish := Throws invariant_not_loaded |}.
Proof.
  assert (H : [Provider 1] ≠ []) by (intros H; discriminate H).
  split; [exact H |].
  exact (proj1 (forceReload_with_push_then_matchAll Demo.MatchOptions Demo.normalize
                  Demo.isDynamicRoute Demo.groupMatcherResults Demo.sortDynamicMatchers
                  Demo.answers_about [Provider 1] Demo.one_provider "/about" Demo.plain H)).
Defined.

Lemma forceReload_identical_resolves_witness :
  promise_all (Demo.answers_about_slug <$> providers Demo.loaded)
    = Fulfilled [[Demo.slug; Demo.about]]
  ∧ Forall2 (λ a b, address a = address b)
      (previousMatchers Demo.loaded) (concat [[Demo.slug; Demo.about]])
  ∧ Demo.reload_promise Demo.answers_about_slug [Provider 1] Demo.loaded = Some Resolved.
Proof.
  assert (H1 : promise_all (Demo.answers_about_slug <$> providers Demo.loaded)
               = Fulfilled [[Demo.slug; Demo.about]]) by reflexivity.
  assert (H2 : Forall2 (λ a b, address a = address b)
                 (previousMatchers Demo.loaded) (concat [[Demo.slug; Demo.about]]))
    by (vm_compute; repeat constructor).
  split_and!; [exact H1 | exact H2 |].
  exact (forceReload_identical_resolves Demo.groupMatcherResults Demo.sortDynamicMatchers
           Demo.answers_about_slug [Provider 1] Demo.loaded _ H1 H2).
Defined.

Lemma matchAll_all_successes_witness :
  lastCompilationID Demo.loaded = compilationID Demo.loaded
  ∧ truthy (matchedOutputPathname (options (Demo.normalize "/about" Demo.plain))) = false
  ∧ finish (Demo.matchAll Demo.loaded "/about" Demo.plain) = Returns ().
Proof.
  assert (H1 : lastCompilationID Demo.loaded = compilationID Demo.loaded)
    by reflexivity.
  assert (H2 : truthy (matchedOutputPathname
                         (options (Demo.normalize "/about" Demo.plain))) = false)
    by reflexivity.
  assert (H3 : ∀ x, x ∈ static (matchers Demo.loaded) ++ dynamic (matchers Demo.loaded) →
                 isLocaleRouteMatcher x = true →
                 is_Some (i18n (options (Demo.normalize "/about" Demo.plain)))).
  { intros x Hx Hlocale. apply list_elem_of_In in Hx. simpl in Hx.
    destruct Hx as [<- | [<- | []]]; discriminate Hlocale. }
  split_and!; [exact H1 | exact H2 |].
  exact (proj1 (matchAll_all_successes Demo.MatchOptions Demo.normalize
                  Demo.isDynamicRoute Demo.loaded "/about" Demo.plain H1 H2 H3)).
Defined.

(** [load] starts its reload exactly as [forceReload] does: setting the flag
    beforehand makes no difference to the start of the reload. *)
Lemma load_begin m :
  forceReload_begin (set_reloadHasBeenCalled true m) = forceReload_begin m.
Proof. reflexivity. Qed.
